(** * abc_parser_app: a shallow embedding of the ABC tune importer

    The program [abc_parser_app.py] scans a directory tree for [.abc] files,
    cuts each file into tune blocks with a regular expression, extracts the
    header fields of every block, stores one row per tune and answers a few
    queries over the rows.  This development embeds those functions and
    proves the properties stated about them.

    Conventions.
    - A Python [str] is a [list ascii]; a character is the code point of the
      same number, so the strings covered are those over U+0000..U+00FF.  The
      interpreter's character tables ([isspace], line boundaries, [isdigit],
      [upper], [lower]) are written out in full for that range.
    - Paths follow [posixpath]: [os.sep] is ["/"].
    - A call that can raise returns a [result]; the import run, which also
      writes to the database, lives in a state-and-exception monad. *)

From Stdlib Require Import String Ascii List Bool Arith NArith ZArith Lia.
From Stdlib Require Import Sorting.Permutation Sorting.Sorted.
Import ListNotations.
Open Scope char_scope.
Open Scope nat_scope.
Open Scope list_scope.

Abbreviation str := (list ascii).

(** A string literal of the source. *)
Definition lit (s : string) : str := list_ascii_of_string s.
Arguments lit s%_string.

Definition str_eqb (a b : str) : bool :=
  if list_eq_dec ascii_dec a b then true else false.

(** ** Exceptions *)

Inductive exn := IndexError | ValueError.

Inductive result (A : Type) : Type :=
| Ok (a : A)
| Raise (e : exn).
Arguments Ok {A} a.
Arguments Raise {A} e.

Definition rbind {A B} (m : result A) (k : A -> result B) : result B :=
  match m with
  | Ok a => k a
  | Raise e => Raise e
  end.

Declare Scope result_scope.
Delimit Scope result_scope with result.
Notation "x <- m ;; k" := (rbind m (fun x => k))
  (at level 61, m at next level, right associativity) : result_scope.

(** ** Methods of [str] *)

Module Str.

Definition LF : ascii := "010".
Definition CR : ascii := "013".

(** [s.startswith(p)] *)
Fixpoint startswith (p s : str) : bool :=
  match p, s with
  | [], _ => true
  | a :: p', b :: s' => Ascii.eqb a b && startswith p' s'
  | _ :: _, [] => false
  end.

(** [s.endswith(p)] *)
Definition endswith (p s : str) : bool := startswith (rev p) (rev s).

(** [sep.join(parts)] *)
Fixpoint join (sep : str) (parts : list str) : str :=
  match parts with
  | [] => []
  | [p] => p
  | p :: ps => p ++ sep ++ join sep ps
  end.

(** [s.split(sep)] for a separator of one character. *)
Fixpoint split (sep : ascii) (s : str) : list str :=
  match s with
  | [] => [[]]
  | c :: r =>
      if Ascii.eqb c sep then [] :: split sep r
      else match split sep r with
           | l :: ls => (c :: l) :: ls
           | [] => [[c]]
           end
  end.

(** [c.isspace()]: U+0009..U+000D, U+001C..U+001F, U+0020, U+0085, U+00A0. *)
Definition isspace (c : ascii) : bool :=
  let n := nat_of_ascii c in
  ((9 <=? n) && (n <=? 13)) || ((28 <=? n) && (n <=? 32))
  || (n =? 133) || (n =? 160).

(** A line boundary of [splitlines]: U+000A..U+000D, U+001C..U+001E, U+0085. *)
Definition islinebreak (c : ascii) : bool :=
  let n := nat_of_ascii c in
  ((10 <=? n) && (n <=? 13)) || ((28 <=? n) && (n <=? 30)) || (n =? 133).

Fixpoint dropwhile (p : ascii -> bool) (s : str) : str :=
  match s with
  | [] => []
  | c :: r => if p c then dropwhile p r else s
  end.

Definition lstrip (s : str) : str := dropwhile isspace s.
Definition rstrip (s : str) : str := rev (dropwhile isspace (rev s)).

(** [s.strip()] *)
Definition strip (s : str) : str := rstrip (lstrip s).

(** [s.splitlines()]: the lines of [s] without their boundaries; a
    carriage return followed by a line feed is one boundary, and a
    boundary at the very end opens no further line. *)
Fixpoint splitlines (s : str) : list str :=
  match s with
  | [] => []
  | c :: r =>
      if islinebreak c then
        match r with
        | d :: r' =>
            if Ascii.eqb c CR && Ascii.eqb d LF
            then [] :: splitlines r'
            else [] :: splitlines r
        | [] => [[]]
        end
      else match splitlines r with
           | l :: ls => (c :: l) :: ls
           | [] => [[c]]
           end
  end.

(** [c.upper()], as the list of the code points of the result: U+00B5 and
    U+00FF upper-case to code points above U+00FF, and U+00DF to the two
    letters "SS". *)
Definition upper (c : ascii) : list N :=
  let n := N_of_ascii c in
  if ((97 <=? n) && (n <=? 122))%N then [(n - 32)%N]
  else if (n =? 181)%N then [924%N]
  else if (n =? 223)%N then [83%N; 83%N]
  else if (n =? 255)%N then [376%N]
  else if ((224 <=? n) && (n <=? 254) && negb (n =? 247))%N then [(n - 32)%N]
  else [n].

(** The code points of a literal. *)
Definition points (s : str) : list N := map N_of_ascii s.

Definition points_eqb (a b : list N) : bool :=
  if list_eq_dec N.eq_dec a b then true else false.

(** [c.lower()]: every upper-case letter of the range has its lower-case
    letter in the range. *)
Definition lower_char (c : ascii) : ascii :=
  let n := nat_of_ascii c in
  if ((65 <=? n) && (n <=? 90)) || ((192 <=? n) && (n <=? 222) && negb (n =? 215))
  then ascii_of_nat (n + 32)
  else c.

(** [s.lower()] *)
Definition lower (s : str) : str := map lower_char s.

(** [c.isdigit()] holds of the ten decimal digits and of the superscript
    digits U+00B2, U+00B3 and U+00B9. *)
Definition isdigit_char (c : ascii) : bool :=
  let n := nat_of_ascii c in
  ((48 <=? n) && (n <=? 57)) || (n =? 178) || (n =? 179) || (n =? 185).

(** [s.isdigit()]: at least one character, and all of them digits. *)
Definition isdigit (s : str) : bool :=
  match s with
  | [] => false
  | _ => forallb isdigit_char s
  end.

(** [c.isdecimal()]: the characters that form numbers in base ten. *)
Definition isdecimal_char (c : ascii) : bool :=
  let n := nat_of_ascii c in (48 <=? n) && (n <=? 57).

(** [s in t]: [s] occurs in [t] as a substring. *)
Fixpoint contains (s t : str) : bool :=
  startswith s t ||
  match t with
  | [] => false
  | _ :: t' => contains s t'
  end.

End Str.

(** [int(s)] for a string that [isdigit] accepted: no sign, blank or
    underscore can occur, so the literal is a number exactly when each
    character is a decimal digit.  Integers are unbounded; the limit that
    recent interpreters put on the length of a decimal literal (4300 digits
    unless configured otherwise) is not modelled. *)
Fixpoint int_digits (acc : Z) (s : str) : result Z :=
  match s with
  | [] => Ok acc
  | c :: r =>
      if Str.isdecimal_char c
      then int_digits (10 * acc + Z.of_nat (nat_of_ascii c - 48)) r
      else Raise ValueError
  end.

Definition int (s : str) : result Z :=
  match s with
  | [] => Raise ValueError
  | _ => int_digits 0 s
  end.

(** * Segmenter

    [TUNE_BLOCK_REGEX = re.compile(r'(?m)^(X:.*?)(?=(?:\nX:)|\Z)', re.DOTALL)]
    and its [findall], which returns the text of group 1 of the successive
    leftmost matches, each search resuming where the previous match ended. *)

Module TUNE_BLOCK_REGEX.
Import Str.

(** [(?m)^]: the position is the start of the text or follows a line feed;
    [prev] is the character before the position. *)
Definition line_start (prev : option ascii) : bool :=
  match prev with
  | None => true
  | Some c => Ascii.eqb c LF
  end.

(** [(?=(?:\nX:)|\Z)]: a line feed and ["X:"] follow, or the text ends. *)
Definition lookahead (rest : str) : bool :=
  startswith (LF :: lit "X:") rest ||
  match rest with
  | [] => true
  | _ :: _ => false
  end.

(** [.*?] under [re.DOTALL], followed by the lookahead: the shortest run of
    characters, line feeds included, after which the lookahead holds.
    Returns the run and the text left after it. *)
Fixpoint lazy_any (rest : str) : str * str :=
  match rest with
  | [] => ([], [])
  | c :: r =>
      if lookahead rest then ([], rest)
      else let (b, r') := lazy_any r in (c :: b, r')
  end.

(** One attempt of the pattern at a position: group 1 and the text left
    after the match. *)
Definition match_at (prev : option ascii) (rest : str) : option (str * str) :=
  if line_start prev && startswith (lit "X:") rest then
    let (b, r') := lazy_any (skipn 2 rest) in Some (lit "X:" ++ b, r')
  else None.

(** The scan of [findall]: try the position, and on failure move one
    character on.  A match is never empty, so [fuel] above the length of
    the text is never exhausted. *)
Fixpoint findall_from (fuel : nat) (prev : option ascii) (rest : str)
  : list str :=
  match fuel with
  | 0 => []
  | S fuel' =>
      match match_at prev rest with
      | Some (block, rest') =>
          block :: findall_from fuel' (Some (last block LF)) rest'
      | None =>
          match rest with
          | [] => []
          | c :: r => findall_from fuel' (Some c) r
          end
      end
  end.

Definition findall (content : str) : list str :=
  findall_from (S (length content)) None content.

End TUNE_BLOCK_REGEX.

(** ** The segmentation in terms of lines

    The lines of a text are its pieces between line feeds.  A record-start
    marker is a line that begins with ["X:"]. *)

Definition text_lines (content : str) : list str := Str.split Str.LF content.

Definition is_marker (line : str) : bool := Str.startswith (lit "X:") line.
Arguments is_marker : simpl never.

(** The lines that follow, up to the next marker line. *)
Fixpoint until_marker (ls : list str) : list str :=
  match ls with
  | [] => []
  | l :: r => if is_marker l then [] else l :: until_marker r
  end.

(** The lines from the next marker line on. *)
Fixpoint from_marker (ls : list str) : list str :=
  match ls with
  | [] => []
  | l :: r => if is_marker l then ls else from_marker r
  end.

(** One group of lines per marker line, in order: the marker line and the
    lines up to the next marker line; lines before the first marker line
    belong to no group. *)
Fixpoint blocks_of_lines (ls : list str) : list (list str) :=
  match ls with
  | [] => []
  | l :: r =>
      if is_marker l then (l :: until_marker r) :: blocks_of_lines r
      else blocks_of_lines r
  end.

Definition unlines (ls : list str) : str := Str.join [Str.LF] ls.

Definition lf_free (l : str) : Prop := ~ In Str.LF l.

(** Every line but the first, each behind its line feed. *)
Definition lf_cat (ls : list str) : str :=
  flat_map (fun l => Str.LF :: l) ls.

(** * Field Extractor *)

(** The dictionary [fields] of [parse_tune_block]; the key ['title'] is
    entered last and reads [None] until then. *)
Record tune : Type := mk_tune {
  x_number : option str;
  titles : list str;
  composer : option str;
  rhythm : option str;
  meter : option str;
  unit_length : option str;
  key : option str;
  tune_text : str;
  title : option str
}.

Definition set_x_number (v : str) (f : tune) : tune :=
  mk_tune (Some v) (titles f) (composer f) (rhythm f) (meter f)
          (unit_length f) (key f) (tune_text f) (title f).
Definition append_title (v : str) (f : tune) : tune :=
  mk_tune (x_number f) (titles f ++ [v]) (composer f) (rhythm f) (meter f)
          (unit_length f) (key f) (tune_text f) (title f).
Definition set_composer (v : str) (f : tune) : tune :=
  mk_tune (x_number f) (titles f) (Some v) (rhythm f) (meter f)
          (unit_length f) (key f) (tune_text f) (title f).
Definition set_rhythm (v : str) (f : tune) : tune :=
  mk_tune (x_number f) (titles f) (composer f) (Some v) (meter f)
          (unit_length f) (key f) (tune_text f) (title f).
Definition set_meter (v : str) (f : tune) : tune :=
  mk_tune (x_number f) (titles f) (composer f) (rhythm f) (Some v)
          (unit_length f) (key f) (tune_text f) (title f).
Definition set_unit_length (v : str) (f : tune) : tune :=
  mk_tune (x_number f) (titles f) (composer f) (rhythm f) (meter f)
          (Some v) (key f) (tune_text f) (title f).
Definition set_key (v : str) (f : tune) : tune :=
  mk_tune (x_number f) (titles f) (composer f) (rhythm f) (meter f)
          (unit_length f) (Some v) (tune_text f) (title f).
Definition set_title (v : option str) (f : tune) : tune :=
  mk_tune (x_number f) (titles f) (composer f) (rhythm f) (meter f)
          (unit_length f) (key f) (tune_text f) v.

(** [s[i]] *)
Definition getitem (s : str) (i : nat) : result ascii :=
  match nth_error s i with
  | Some c => Ok c
  | None => Raise IndexError
  end.

(** [tag == 'X'], on the code points of the two strings. *)
Definition tag_is (tag : list N) (letter : string) : bool :=
  Str.points_eqb tag (Str.points (lit letter)).

Open Scope result_scope.

(** The body of the loop [for line in lines] of [parse_tune_block]. *)
Definition parse_line (fields : tune) (line : str) : result tune :=
  if 2 <=? length line then
    c1 <- getitem line 1 ;;
    if Ascii.eqb c1 ":" then
      c0 <- getitem line 0 ;;
      let tag := Str.upper c0 in
      let value := Str.strip (skipn 2 line) in
      if tag_is tag "X" then Ok (set_x_number value fields)
      else if tag_is tag "T" then Ok (append_title value fields)
      else if tag_is tag "C" then Ok (set_composer value fields)
      else if tag_is tag "R" then Ok (set_rhythm value fields)
      else if tag_is tag "M" then Ok (set_meter value fields)
      else if tag_is tag "L" then Ok (set_unit_length value fields)
      else if tag_is tag "K" then Ok (set_key value fields)
      else Ok fields
    else Ok fields
  else Ok fields.

Fixpoint for_lines (fields : tune) (lines : list str) : result tune :=
  match lines with
  | [] => Ok fields
  | line :: rest => fields' <- parse_line fields line ;; for_lines fields' rest
  end.

Definition parse_tune_block (block : str) : result tune :=
  let lines := Str.splitlines (Str.strip block) in
  let fields :=
    mk_tune None [] None None None None None (Str.strip block) None in
  fields <- for_lines fields lines ;;
  Ok (set_title
        (match titles fields with
         | [] => None
         | _ :: _ => Some (Str.join (lit " / ") (titles fields))
         end)
        fields).

(** The loop [for block in blocks] of [parse_abc_file]. *)
Fixpoint parse_blocks (blocks : list str) : result (list tune) :=
  match blocks with
  | [] => Ok []
  | block :: rest =>
      tune <- parse_tune_block block ;;
      tunes <- parse_blocks rest ;;
      Ok (tune :: tunes)
  end.

(** [parse_abc_file]; [read_text] gives the text that [open(...).read()]
    returns for a path, decoded and with its line ends translated. *)
Definition parse_abc_file (read_text : str -> str) (file_path : str)
  : result (list tune) :=
  let content := read_text file_path in
  let blocks := TUNE_BLOCK_REGEX.findall content in
  parse_blocks blocks.

(** ** The record in terms of tagged lines *)

Inductive tag := TagX | TagT | TagC | TagR | TagM | TagL | TagK.

Definition tag_eqb (a b : tag) : bool :=
  match a, b with
  | TagX, TagX | TagT, TagT | TagC, TagC | TagR, TagR
  | TagM, TagM | TagL, TagL | TagK, TagK => true
  | _, _ => false
  end.

Definition either (c upper_case lower_case : ascii) : bool :=
  Ascii.eqb c upper_case || Ascii.eqb c lower_case.

(** The recognised tag letters, in either case. *)
Definition tag_of_letter (c : ascii) : option tag :=
  if either c "X" "x" then Some TagX
  else if either c "T" "t" then Some TagT
  else if either c "C" "c" then Some TagC
  else if either c "R" "r" then Some TagR
  else if either c "M" "m" then Some TagM
  else if either c "L" "l" then Some TagL
  else if either c "K" "k" then Some TagK
  else None.

(** A tagged field line has at least two characters, the second a colon. *)
Definition is_tagged (line : str) : bool :=
  match line with
  | _ :: c1 :: _ => Ascii.eqb c1 ":"
  | _ => false
  end.

(** The recognised tag a line carries, if any. *)
Definition tag_of_line (line : str) : option tag :=
  match line with
  | c0 :: c1 :: _ => if Ascii.eqb c1 ":" then tag_of_letter c0 else None
  | _ => None
  end.

Definition has_tag (t : tag) (line : str) : bool :=
  match tag_of_line line with
  | Some t' => tag_eqb t t'
  | None => false
  end.

(** The value of a tagged line: what follows the colon, trimmed. *)
Definition value_of (line : str) : str := Str.strip (skipn 2 line).

(** The values of the lines of one tag, in order of appearance. *)
Definition tag_values (t : tag) (lines : list str) : list str :=
  map value_of (filter (has_tag t) lines).

(** The value of the last line of a tag; absent when no line has it. *)
Definition last_value (t : tag) (lines : list str) : option str :=
  last (map Some (tag_values t lines)) None.

(** The lines the extractor reads in a block. *)
Definition block_lines (block : str) : list str :=
  Str.splitlines (Str.strip block).

(** What one line does to the fields. *)
Definition apply_line (f : tune) (line : str) : tune :=
  match tag_of_line line with
  | Some TagX => set_x_number (value_of line) f
  | Some TagT => append_title (value_of line) f
  | Some TagC => set_composer (value_of line) f
  | Some TagR => set_rhythm (value_of line) f
  | Some TagM => set_meter (value_of line) f
  | Some TagL => set_unit_length (value_of line) f
  | Some TagK => set_key (value_of line) f
  | None => f
  end.

(** The scalar field a tag writes. *)
Definition scalar (t : tag) (f : tune) : option str :=
  match t with
  | TagX => x_number f
  | TagC => composer f
  | TagR => rhythm f
  | TagM => meter f
  | TagL => unit_length f
  | TagK => key f
  | TagT => None
  end.

(** The title derived from the list of titles. *)
Definition derive_title (ts : list str) : option str :=
  match ts with
  | [] => None
  | _ :: _ => Some (Str.join (lit " / ") ts)
  end.

(** The record of a block, field by field, from its lines. *)
Definition record_of_lines (text : str) (ls : list str) : tune :=
  mk_tune (last_value TagX ls) (tag_values TagT ls) (last_value TagC ls)
          (last_value TagR ls) (last_value TagM ls) (last_value TagL ls)
          (last_value TagK ls) text (derive_title (tag_values TagT ls)).

(** The lines that carry one of the seven tags. *)
Definition recognised (line : str) : bool :=
  match tag_of_line line with
  | Some _ => true
  | None => false
  end.

(** * Store

    A row of the table [tunes].  The key [id], which the table assigns on
    its own, is left out: none of the operations below reads it. *)

Module TuneRow.

Record t : Type := mk {
  book : option Z;
  file_path : str;
  x_number : option str;
  title : option str;
  composer : option str;
  rhythm : option str;
  meter : option str;
  unit_length : option str;
  key : option str;
  tune_text : str;
  date_added : str
}.

End TuneRow.

(** The table, oldest row first; also the frame that [load_tunes_df] reads
    with [SELECT * FROM tunes]. *)
Definition DataFrame := list TuneRow.t.

(** The row that [insert_tune] writes; [now] is the reading of the clock. *)
Definition row_of_tune (now : str) (tune : tune) (book : option Z)
  (file_path : str) : TuneRow.t :=
  TuneRow.mk book file_path (x_number tune) (title tune) (composer tune)
         (rhythm tune) (meter tune) (unit_length tune) (key tune)
         (tune_text tune) now.

(** * Queries *)

(** [series.fillna(value)] on one cell. *)
Definition fillna (value : str) (cell : option str) : str :=
  match cell with
  | Some s => s
  | None => value
  end.

(** [df[mask]] *)
Fixpoint select (df : DataFrame) (mask : list bool) : DataFrame :=
  match df, mask with
  | r :: df', b :: mask' => if b then r :: select df' mask' else select df' mask'
  | _, _ => []
  end.

Definition get_tunes_by_book (df : DataFrame) (book_number : Z) : DataFrame :=
  select df (map (fun r => match TuneRow.book r with
                           | Some b => Z.eqb b book_number
                           | None => false
                           end) df).

(** ** Regular expressions, as [Series.str.contains] uses them

    [Series.str.contains(pat)] has [regex=True] by default: it compiles
    [pat] with [re.compile] and keeps the cells in which [search] finds a
    match.  The patterns modelled are those written with ordinary characters
    and the dot. *)

Module re.

Inductive atom : Type :=
| Char (c : ascii)   (* an ordinary character matches itself *)
| AnyChar.           (* [.] matches any character but a line feed *)

(** The characters with a meaning of their own in a pattern. *)
Definition special (c : ascii) : bool :=
  existsb (Ascii.eqb c) (lit ".^$*+?{}[]\|()").

(** [re.compile(pat)]; [None] for a pattern that uses a special character
    other than the dot, which is outside what is modelled here. *)
Fixpoint compile (pat : str) : option (list atom) :=
  match pat with
  | [] => Some []
  | c :: rest =>
      match compile rest with
      | None => None
      | Some p =>
          if Ascii.eqb c "." then Some (AnyChar :: p)
          else if special c then None
          else Some (Char c :: p)
      end
  end.

(** The pattern matches at the start of [s]. *)
Fixpoint match_here (p : list atom) (s : str) : bool :=
  match p, s with
  | [], _ => true
  | Char c :: p', d :: s' => Ascii.eqb c d && match_here p' s'
  | AnyChar :: p', d :: s' => negb (Ascii.eqb d Str.LF) && match_here p' s'
  | _ :: _, [] => false
  end.

(** [p.search(s) is not None]: the pattern matches at some position. *)
Fixpoint search (p : list atom) (s : str) : bool :=
  match_here p s ||
  match s with
  | [] => false
  | _ :: s' => search p s'
  end.

End re.

(** [series.str.contains(pat)]: the mask over the cells. *)
Definition str_contains (pat : str) (cells : list str) : option (list bool) :=
  match re.compile pat with
  | Some p => Some (map (re.search p) cells)
  | None => None
  end.

Definition get_tunes_by_type (df : DataFrame) (tune_type : str)
  : option DataFrame :=
  let cells := map (fun r => Str.lower (fillna [] (TuneRow.rhythm r))) df in
  match str_contains (Str.lower tune_type) cells with
  | Some mask => Some (select df mask)
  | None => None
  end.

Definition search_tunes (df : DataFrame) (search_term : str)
  : option DataFrame :=
  let cells := map (fun r => Str.lower (fillna [] (TuneRow.title r))) df in
  match str_contains (Str.lower search_term) cells with
  | Some mask => Some (select df mask)
  | None => None
  end.

(** ** Counting values *)

(** The number of cells that hold [v]. *)
Definition count (v : str) (col : list str) : nat :=
  length (filter (str_eqb v) col).

(** The distinct values of a column, in the order in which they first
    appear. *)
Fixpoint firsts (col : list str) : list str :=
  match col with
  | [] => []
  | v :: rest => v :: filter (fun u => negb (str_eqb v u)) (firsts rest)
  end.

(** The position at which a value first appears. *)
Fixpoint first_seen (v : str) (col : list str) : nat :=
  match col with
  | [] => 0
  | u :: rest => if str_eqb u v then 0 else S (first_seen v rest)
  end.

(** An entry goes behind the entries with a larger count and before the
    first entry whose count is not larger. *)
Fixpoint insert_desc (e : str * nat) (sorted : list (str * nat))
  : list (str * nat) :=
  match sorted with
  | [] => [e]
  | h :: t => if snd e <? snd h then h :: insert_desc e t else e :: sorted
  end.

Definition sort_values_desc (entries : list (str * nat)) : list (str * nat) :=
  fold_right insert_desc [] entries.

(** Modelled from the spec: [Series.value_counts] is code of the pandas
    library, which the repository calls and does not contain.  It counts each
    distinct value and lists the values by descending count; values with the
    same count are kept in the order in which they first appear, as the
    specification words it ("stable sort").  The library's own documentation
    fixes the descending order only. *)
Definition value_counts (col : list str) : list (str * nat) :=
  sort_values_desc (map (fun v => (v, count v col)) (firsts col)).

(** [obj.head(n)]: the first [n] entries; for a negative [n], all but the
    last [-n]. *)
Definition head {A} (n : Z) (l : list A) : list A :=
  if (0 <=? n)%Z then firstn (Z.to_nat n) l
  else firstn (length l - Z.to_nat (- n)) l.

(** The label under which a row is counted. *)
Definition composer_label (r : TuneRow.t) : str :=
  fillna (lit "Unknown") (TuneRow.composer r).

Definition top_composers (df : DataFrame) (top_n : Z) : list (str * nat) :=
  let comp := map composer_label df in
  head top_n (value_counts comp).

(** A frame of one reel. *)
Definition one_reel : TuneRow.t :=
  TuneRow.mk (Some 2%Z) (lit "abc_books/2/reels.abc") (Some (lit "1"))
         (Some (lit "Cooley's")) None (Some (lit "reel")) None None
         (Some (lit "Edor")) (lit "X:1") (lit "2024-01-01T00:00:00").

(** The order of the ranking: a larger count first, and among equal counts
    the value that is met first. *)
Definition ranks_before (idx : str -> nat) (a b : str * nat) : Prop :=
  snd b < snd a \/ (snd a = snd b /\ idx (fst a) < idx (fst b)).

(** * Paths: the functions of [posixpath] that the program calls *)

Module posixpath.

Definition sep : ascii := "/".

Definition isabs (s : str) : bool := Str.startswith [sep] s.

(** One step of the loop of [join]: [path] joined with the component [b]. *)
Definition join_step (path b : str) : str :=
  if Str.startswith [sep] b then b
  else match path with
       | [] => path ++ b
       | _ :: _ => if Str.endswith [sep] path then path ++ b
                   else path ++ [sep] ++ b
       end.

(** [join(a, *p)] *)
Definition join (a : str) (p : list str) : str := fold_left join_step p a.

(** The body of the loop of [normpath]; [new_comps] grows at its end. *)
Definition norm_step (initial_slashes : nat) (new_comps : list str)
  (comp : str) : list str :=
  if str_eqb comp [] || str_eqb comp (lit ".") then new_comps
  else if negb (str_eqb comp (lit ".."))
          || ((initial_slashes =? 0) && match new_comps with [] => true | _ => false end)
          || match new_comps with
             | [] => false
             | _ :: _ => str_eqb (last new_comps []) (lit "..")
             end
       then new_comps ++ [comp]
       else match new_comps with
            | [] => new_comps
            | _ :: _ => removelast new_comps
            end.

Definition normpath (path : str) : str :=
  match path with
  | [] => lit "."
  | _ :: _ =>
      let initial_slashes :=
        if Str.startswith (lit "/") path then
          if Str.startswith (lit "//") path && negb (Str.startswith (lit "///") path)
          then 2 else 1
        else 0 in
      let comps := Str.split sep path in
      let new_comps := fold_left (norm_step initial_slashes) comps [] in
      let path := repeat sep initial_slashes ++ Str.join [sep] new_comps in
      match path with
      | [] => lit "."
      | _ :: _ => path
      end
  end.

(** [abspath(path)], with [cwd] the value of [os.getcwd()]. *)
Definition abspath (cwd path : str) : str :=
  normpath (if isabs path then path else join cwd [path]).

(** [commonprefix([a, b])] on two lists of components: their longest common
    prefix. *)
Fixpoint commonprefix (a b : list str) : list str :=
  match a, b with
  | x :: a', y :: b' => if str_eqb x y then x :: commonprefix a' b' else []
  | _, _ => []
  end.

Definition nonempty (s : str) : bool :=
  match s with
  | [] => false
  | _ :: _ => true
  end.

(** [relpath(path, start)] *)
Definition relpath (cwd path start : str) : result str :=
  match path with
  | [] => Raise ValueError
  | _ :: _ =>
      let start_list := filter nonempty (Str.split sep (abspath cwd start)) in
      let path_list := filter nonempty (Str.split sep (abspath cwd path)) in
      let i := length (commonprefix start_list path_list) in
      let rel_list :=
        repeat (lit "..") (length start_list - i) ++ skipn i path_list in
      match rel_list with
      | [] => Ok (lit ".")
      | a :: p => Ok (join a p)
      end
  end.

End posixpath.

(** * Book Resolver *)

(** [parts[i]] *)
Definition getpart (parts : list str) (i : nat) : result str :=
  match nth_error parts i with
  | Some p => Ok p
  | None => Raise IndexError
  end.

Definition get_book_number_from_path (cwd file_path base_dir : str)
  : result (option Z) :=
  rel <- posixpath.relpath cwd file_path base_dir ;;
  let parts := Str.split posixpath.sep rel in
  if 2 <=? length parts then
    parent <- getpart parts 0 ;;
    if Str.isdigit parent then
      n <- int parent ;; Ok (Some n)
    else Ok None
  else Ok None.

(** The number a string of decimal digits denotes. *)
Definition decimal_value (s : str) : Z :=
  fold_left (fun acc c => (10 * acc + Z.of_nat (nat_of_ascii c - 48))%Z) s 0%Z.

(** The folder name ["²"]: the one character U+00B2, superscript two. *)
Definition superscript_two : str := [ascii_of_nat 178].

(** * Importer *)

(** A directory: its name, the names of its files and its sub-directories,
    in the order in which the system lists them. *)
#[local] Unset Elimination Schemes.
Inductive dirtree : Type :=
| Dir (name : str) (files : list str) (subdirs : list dirtree).
#[local] Set Elimination Schemes.

Definition dir_name (d : dirtree) : str :=
  match d with
  | Dir name _ _ => name
  end.

(** What the program reads of its surroundings: the working directory, the
    directory tree found at a path (if it is a directory), the decoded text
    of a file, and the clock, read when the table holds a given number of
    rows. *)
Record world : Type := mk_world {
  getcwd : str;
  tree_at : str -> option dirtree;
  read_text : str -> str;
  utcnow : nat -> str
}.

(** [os.walk(top)] on a directory: the triples (root, dirs, files), the
    directory itself first. *)
Fixpoint walk_tree (top : str) (d : dirtree)
  : list (str * list str * list str) :=
  match d with
  | Dir _ files subdirs =>
      (top, map dir_name subdirs, files)
      :: flat_map (fun sub => walk_tree (posixpath.join top [dir_name sub]) sub)
                  subdirs
  end.

Definition os_walk (w : world) (top : str) : list (str * list str * list str) :=
  match tree_at w top with
  | Some d => walk_tree top d
  | None => []
  end.

(** [a < b] on strings: by code points, a proper prefix first. *)
Fixpoint str_ltb (a b : str) : bool :=
  match a, b with
  | _, [] => false
  | [], _ :: _ => true
  | x :: a', y :: b' =>
      (nat_of_ascii x <? nat_of_ascii y)
      || (Ascii.eqb x y && str_ltb a' b')
  end.

(** A string goes before the first one that is larger. *)
Fixpoint insert_sorted (x : str) (l : list str) : list str :=
  match l with
  | [] => [x]
  | h :: t => if str_ltb x h then x :: l else h :: insert_sorted x t
  end.

(** [sorted(l)] *)
Definition sorted (l : list str) : list str := fold_right insert_sorted [] l.

(** [f.lower().endswith('.abc')] *)
Definition is_abc (f : str) : bool := Str.endswith (lit ".abc") (Str.lower f).

Definition find_abc_files (w : world) (base_dir : str) : list str :=
  let abc_files :=
    flat_map (fun entry =>
                let '(root, _, files) := entry in
                map (fun f => posixpath.join root [f]) (filter is_abc files))
             (os_walk w base_dir) in
  sorted abc_files.

(** Statements that write to the table and may raise: the table goes in and
    comes out, also when an exception leaves the statement. *)
Definition io (A : Type) : Type := DataFrame -> result A * DataFrame.

Definition io_ret {A} (a : A) : io A := fun db => (Ok a, db).

Definition io_bind {A B} (m : io A) (k : A -> io B) : io B :=
  fun db =>
    match m db with
    | (Ok a, db') => k a db'
    | (Raise e, db') => (Raise e, db')
    end.

Definition io_lift {A} (r : result A) : io A := fun db => (r, db).

Declare Scope io_scope.
Delimit Scope io_scope with io.
Notation "x <- m ;; k" := (io_bind m (fun x => k))
  (at level 61, m at next level, right associativity) : io_scope.

(** [insert_tune]: one row more, committed at once. *)
Definition insert_tune (w : world) (tune : tune) (book : option Z)
  (file_path : str) : io unit :=
  fun db =>
    (Ok tt, db ++ [row_of_tune (utcnow w (length db)) tune book file_path]).

(** The loop [for tune in tunes] of [import_abc_books]. *)
Fixpoint insert_tunes (w : world) (tunes : list tune) (book : option Z)
  (fpath : str) (total : nat) : io nat :=
  match tunes with
  | [] => io_ret total
  | tune :: rest =>
      (_ <- insert_tune w tune book fpath ;;
       insert_tunes w rest book fpath (S total))%io
  end.

(** The loop [for fpath in abc_files]. *)
Fixpoint import_files (w : world) (abc_files : list str) (base_dir : str)
  (total : nat) : io nat :=
  match abc_files with
  | [] => io_ret total
  | fpath :: rest =>
      (book <- io_lift (get_book_number_from_path (getcwd w) fpath base_dir) ;;
       tunes <- io_lift (parse_abc_file (read_text w) fpath) ;;
       total' <- insert_tunes w tunes book fpath total ;;
       import_files w rest base_dir total')%io
  end.

(** [import_abc_books]; the table is created when missing, and the rows it
    already holds stay. *)
Definition import_abc_books (w : world) (base_dir : str) : io nat :=
  let abc_files := find_abc_files w base_dir in
  import_files w abc_files base_dir 0.

(** ** The run in terms of files *)

(** The records of a file. *)
Definition tunes_of (w : world) (fpath : str) : list tune :=
  map (fun block => record_of_lines (Str.strip block) (block_lines block))
      (TUNE_BLOCK_REGEX.findall (read_text w fpath)).

(** The rows written for a list of records with their book and path, the
    first when the table holds [start] rows. *)
Fixpoint write_rows (w : world) (start : nat)
  (entries : list (tune * option Z * str)) : list TuneRow.t :=
  match entries with
  | [] => []
  | (tune, book, fpath) :: rest =>
      row_of_tune (utcnow w start) tune book fpath :: write_rows w (S start) rest
  end.

(** The book of a file whose resolution returns. *)
Definition book_of (w : world) (base_dir fpath : str) : option Z :=
  match get_book_number_from_path (getcwd w) fpath base_dir with
  | Ok book => book
  | Raise _ => None
  end.

Definition resolves (w : world) (base_dir fpath : str) : Prop :=
  exists book, get_book_number_from_path (getcwd w) fpath base_dir = Ok book.

(** The records of the files, each with the book and the path of its
    file. *)
Definition entries_of (w : world) (base_dir : str) (files : list str)
  : list (tune * option Z * str) :=
  flat_map (fun fpath =>
              map (fun t => (t, book_of w base_dir fpath, fpath))
                  (tunes_of w fpath))
           files.

(** [a <= b] on strings. *)
Definition str_le (a b : str) : Prop := str_ltb b a = false.

(** The paths of the files under the root whose name ends in [.abc],
    whatever the case of the letters, as the walk meets them. *)
Definition abc_paths (w : world) (base_dir : str) : list str :=
  flat_map (fun entry =>
              let '(root, _, files) := entry in
              map (fun f => posixpath.join root [f]) (filter is_abc files))
           (os_walk w base_dir).

(** ** Data of the failing run

    A corpus with two books, the second in a folder named ["²"]. *)
Definition two_books : dirtree :=
  Dir (lit "abc_books") [lit "notes.txt"]
      [Dir (lit "1") [lit "reels.ABC"; lit "cover.png"] [];
       Dir superscript_two [lit "jigs.abc"] []].

Definition two_books_world : world :=
  mk_world (lit "/srv")
           (fun path => if str_eqb path (lit "abc_books") then Some two_books
                        else None)
           (fun _ => unlines [lit "X:1"; lit "T:Cooley's"; lit "R:reel"])
           (fun _ => lit "2024-01-01T00:00:00").

(** * Data of the worked examples *)

(** ["An Fhéileacán"], with its two accented letters as U+00E9 and U+00E1. *)
Definition an_fheileacan : str :=
  lit "An Fh" ++ [ascii_of_nat 233] ++ lit "ileac" ++ [ascii_of_nat 225]
  ++ lit "n".

Definition two_tunes : str :=
  unlines [lit "X:1"; lit "T:The Butterfly"; lit "T:" ++ an_fheileacan;
           lit "R:slip jig"; lit "K:Edor"; lit "body line 1";
           lit "X:2"; lit "T:Cooley's"; lit "R:reel"; []].

(** * Further functions and notions *)

(** [load_tunes_df]: the whole table, in the order of its rows. *)
Definition load_tunes_df (db : DataFrame) : DataFrame := db.

(** A name as a directory listing gives it: not empty, without a separator,
    and neither ["."] nor [".."]. *)
Definition plain_name (c : str) : bool :=
  posixpath.nonempty c
  && negb (existsb (Ascii.eqb posixpath.sep) c)
  && negb (str_eqb c (lit "."))
  && negb (str_eqb c (lit "..")).

(** The non-empty pieces of a path between separators. *)
Definition components (p : str) : list str :=
  filter posixpath.nonempty (Str.split posixpath.sep p).

(** The number of separators a path begins with. *)
Fixpoint leading_seps (p : str) : nat :=
  match p with
  | c :: r => if Ascii.eqb c posixpath.sep then S (leading_seps r) else 0
  | [] => 0
  end.

(** The number of initial slashes that [normpath] keeps: two stay two, any
    other number becomes one. *)
Definition initial_slashes (leading : nat) : nat :=
  match leading with
  | 0 => 0
  | 2 => 2
  | _ => 1
  end.

(** A component as [split] gives it, once the empty ones are dropped. *)
Definition piece (c : str) : Prop := c <> [] /\ ~ In posixpath.sep c.

(** The string that [abspath] normalises. *)
Definition anchored (cwd p : str) : str :=
  if posixpath.isabs p then p else posixpath.join cwd [p].

(** A row without its time stamp. *)
Definition undated (r : TuneRow.t) : TuneRow.t :=
  TuneRow.mk (TuneRow.book r) (TuneRow.file_path r) (TuneRow.x_number r) (TuneRow.title r)
         (TuneRow.composer r) (TuneRow.rhythm r) (TuneRow.meter r) (TuneRow.unit_length r)
         (TuneRow.key r) (TuneRow.tune_text r) [].

(** The rows of a book: the test of [get_tunes_by_book] on one row. *)
Definition in_book (n : Z) (r : TuneRow.t) : bool :=
  match TuneRow.book r with
  | Some b => Z.eqb b n
  | None => false
  end.

(** The folders of a directory. *)
Definition subdirs_of (d : dirtree) : list dirtree :=
  match d with
  | Dir _ _ subdirs => subdirs
  end.

(** A tree as directory listings give it: every name of a file or of a
    directory below the top is plain. *)
Fixpoint plain_tree (d : dirtree) : bool :=
  match d with
  | Dir _ files subdirs =>
      forallb plain_name files
      && forallb (fun sub => plain_name (dir_name sub) && plain_tree sub)
                 subdirs
  end.

(** Every folder of the root with a name that [isdigit] accepts has a name
    of decimal digits. *)
Definition decimal_folders (d : dirtree) : bool :=
  forallb (fun sub => implb (Str.isdigit (dir_name sub))
                            (forallb Str.isdecimal_char (dir_name sub)))
          (subdirs_of d).

(** A directory that the walk of [d] from [top] visits: [top] itself, or
    [top] joined with plain names, the first of them a folder of [d]. *)
Definition below (top : str) (d : dirtree) (root : str) : Prop :=
  root = top
  \/ exists folder names,
       In folder (map dir_name (subdirs_of d))
       /\ Forall (fun c => plain_name c = true) (folder :: names)
       /\ root = posixpath.join top (folder :: names).

(** The book that the first name of a path under the root stands for. *)
Definition book_of_names (first : str) (more : list str) : option Z :=
  match more with
  | [] => None
  | _ :: _ => if Str.isdigit first then Some (decimal_value first) else None
  end.

(** The number of records of a text: its lines that begin with ["X:"]. *)
Definition marker_count (content : str) : nat :=
  length (filter is_marker (text_lines content)).

(** A row with no composer, or with the composer ["Unknown"]. *)
Definition unknown_composer (r : TuneRow.t) : bool :=
  match TuneRow.composer r with
  | None => true
  | Some c => str_eqb c (lit "Unknown")
  end.

(** A corpus of plain names: a loose file, a book with a folder of its own,
    and a folder that is no book. *)
Definition plain_books : dirtree :=
  Dir (lit "abc_books") [lit "loose.abc"; lit "notes.txt"]
      [Dir (lit "1") [lit "reels.ABC"] [Dir (lit "old") [lit "airs.abc"] []];
       Dir (lit "misc") [lit "jigs.abc"] []].

Definition plain_books_world : world :=
  mk_world (lit "/srv")
           (fun path => if str_eqb path (lit "abc_books") then Some plain_books
                        else None)
           (fun _ => unlines [lit "X:1"; lit "T:Cooley's"; lit "R:reel"])
           (fun _ => lit "2024-01-01T00:00:00").

(** * Properties

    From here on the file holds no definition of the program: the lemmas
    about each component come first, then the theorem of each property. *)

Lemma str_eqb_eq (a b : str) : str_eqb a b = true <-> a = b.
Proof.
  unfold str_eqb. destruct (list_eq_dec ascii_dec a b); split; congruence.
Qed.

Lemma str_eqb_refl (a : str) : str_eqb a a = true.
Proof. now apply str_eqb_eq. Qed.

(** ** Segmenter *)

Section SegmenterFacts.
Import Str TUNE_BLOCK_REGEX.

Lemma unlines_cons l r : unlines (l :: r) = l ++ lf_cat r.
Proof.
  revert l. induction r as [|m r IH]; intro l.
  - cbn. now rewrite app_nil_r.
  - change (unlines (l :: m :: r)) with (l ++ [LF] ++ unlines (m :: r)).
    rewrite IH. reflexivity.
Qed.

Lemma lf_cat_cons m r : lf_cat (m :: r) = LF :: unlines (m :: r).
Proof. rewrite unlines_cons. reflexivity. Qed.

Lemma lf_cat_app a b : lf_cat (a ++ b) = lf_cat a ++ lf_cat b.
Proof. unfold lf_cat. apply flat_map_app. Qed.

Lemma split_nonempty sep s : split sep s <> [].
Proof.
  destruct s as [|c r]; cbn; [discriminate|].
  destruct (Ascii.eqb c sep); [discriminate|].
  destruct (split sep r); discriminate.
Qed.

Lemma join_split sep s : join [sep] (split sep s) = s.
Proof.
  induction s as [|c r IH]; [reflexivity|].
  cbn [split]. destruct (Ascii.eqb_spec c sep) as [->|Hc].
  - pose proof (split_nonempty sep r) as Hne.
    destruct (split sep r) as [|l ls] eqn:E; [contradiction|].
    change (join [sep] ([] :: l :: ls)) with ([] ++ [sep] ++ join [sep] (l :: ls)).
    rewrite IH. reflexivity.
  - destruct (split sep r) as [|l ls] eqn:E.
    + now destruct (split_nonempty sep r).
    + destruct ls as [|l' ls'].
      * cbn in IH |- *. now rewrite IH.
      * change (join [sep] ((c :: l) :: l' :: ls'))
          with (c :: (l ++ [sep] ++ join [sep] (l' :: ls'))).
        change (join [sep] (l :: l' :: ls'))
          with (l ++ [sep] ++ join [sep] (l' :: ls')) in IH.
        now rewrite IH.
Qed.

Lemma split_sep_free sep s : Forall (fun l => ~ In sep l) (split sep s).
Proof.
  induction s as [|c r IH]; cbn [split].
  - constructor; [intros []|constructor].
  - destruct (Ascii.eqb_spec c sep) as [->|Hc].
    + constructor; [intros []|exact IH].
    + destruct (split sep r) as [|l ls]; [repeat constructor; intros [H|[]]; congruence|].
      inversion IH as [|? ? Hl Hls]; subst. constructor; [|exact Hls].
      intros [H|H]; [congruence|contradiction].
Qed.

Lemma until_from_marker ls : until_marker ls ++ from_marker ls = ls.
Proof.
  induction ls as [|l r IH]; [reflexivity|]. cbn.
  destruct (is_marker l); [reflexivity|]. cbn. now rewrite IH.
Qed.

Lemma blocks_from_marker ls : blocks_of_lines (from_marker ls) = blocks_of_lines ls.
Proof.
  induction ls as [|l r IH]; [reflexivity|]. cbn.
  destruct (is_marker l) eqn:E; [|exact IH]. cbn. now rewrite E.
Qed.

Lemma from_marker_head ls m r : from_marker ls = m :: r -> is_marker m = true.
Proof.
  induction ls as [|l ls IH]; cbn; [discriminate|].
  destruct (is_marker l) eqn:E; [|exact IH]. intros [= <- <-]. exact E.
Qed.

Lemma from_marker_length ls : length (from_marker ls) <= length ls.
Proof.
  induction ls as [|l r IH]; cbn; [lia|]. destruct (is_marker l); cbn; lia.
Qed.

Lemma blocks_count ls : length (blocks_of_lines ls) = length (filter is_marker ls).
Proof.
  induction ls as [|l r IH]; [reflexivity|]. cbn.
  destruct (is_marker l); cbn; now rewrite IH.
Qed.

(** Within a line, a marker is decided by the line alone. *)
Lemma marker_in_text l tail :
  startswith (lit "X:") (l ++ LF :: tail) = is_marker l.
Proof.
  unfold is_marker.
  destruct l as [|a [|b l]]; reflexivity.
Qed.

Lemma lookahead_inside c rest : c <> LF -> lookahead (c :: rest) = false.
Proof.
  intros Hc. unfold lookahead. cbn [startswith].
  destruct (Ascii.eqb_spec LF c) as [E|_]; [congruence|reflexivity].
Qed.

Lemma lookahead_at_lf l r :
  lookahead (LF :: l ++ lf_cat r) = is_marker l.
Proof.
  unfold lookahead. rewrite orb_false_r.
  change (startswith (LF :: lit "X:") (LF :: ?x)) with
    (Ascii.eqb LF LF && startswith (lit "X:") x).
  rewrite Ascii.eqb_refl. cbn [andb].
  destruct r as [|m r].
  - cbn [lf_cat flat_map]. now rewrite app_nil_r.
  - rewrite lf_cat_cons. apply marker_in_text.
Qed.

Lemma lazy_any_line l rest :
  lf_free l ->
  lazy_any (l ++ rest) = (l ++ fst (lazy_any rest), snd (lazy_any rest)).
Proof.
  induction l as [|c l IH]; intros Hl.
  - cbn. now destruct (lazy_any rest).
  - cbn [app lazy_any]. rewrite lookahead_inside.
    + rewrite IH; [reflexivity|]. intros H. apply Hl. now right.
    + intros ->. apply Hl. now left.
Qed.

Lemma lf_free_tail c l : lf_free (c :: l) -> c <> LF /\ lf_free l.
Proof.
  unfold lf_free. intros H. split.
  - intros ->. apply H. now left.
  - intros Hl. apply H. now right.
Qed.

Lemma lazy_any_lines r :
  Forall lf_free r ->
  lazy_any (lf_cat r) = (lf_cat (until_marker r), lf_cat (from_marker r)).
Proof.
  induction 1 as [|m r Hm Hr IH]; [reflexivity|].
  change (lf_cat (m :: r)) with (LF :: m ++ lf_cat r).
  cbn [lazy_any until_marker from_marker]. rewrite lookahead_at_lf.
  destruct (is_marker m); [reflexivity|].
  rewrite (lazy_any_line m _ Hm), IH. reflexivity.
Qed.

Lemma no_match_here prev l tail :
  line_start prev = false \/ is_marker l = false ->
  match_at prev (l ++ LF :: tail) = None.
Proof.
  intros H. unfold match_at. rewrite (marker_in_text l tail).
  destruct H as [-> | ->]; [reflexivity|]. now rewrite andb_false_r.
Qed.

Lemma findall_from_step fuel prev rest :
  findall_from (S fuel) prev rest
  = match match_at prev rest with
    | Some (block, rest') =>
        block :: findall_from fuel (Some (last block LF)) rest'
    | None =>
        match rest with
        | [] => []
        | c :: r => findall_from fuel (Some c) r
        end
    end.
Proof. reflexivity. Qed.

Lemma findall_from_nil fuel prev : findall_from fuel prev [] = [].
Proof.
  destruct fuel; [reflexivity|]. rewrite findall_from_step.
  unfold match_at. now rewrite andb_false_r.
Qed.

(** A line that is no marker, or that the scan enters after its first
    character, is passed without a match. *)
Lemma skip_line l :
  lf_free l -> forall prev tail fuel,
  line_start prev = false \/ is_marker l = false ->
  findall_from (S (length l) + fuel) prev (l ++ LF :: tail)
  = findall_from fuel (Some LF) tail.
Proof.
  induction l as [|c l IH]; intros Hl prev tail fuel H.
  - cbn [length plus]. rewrite findall_from_step.
    now rewrite (no_match_here prev [] tail H).
  - apply lf_free_tail in Hl as [Hc Hl].
    cbn [length plus]. rewrite findall_from_step.
    rewrite (no_match_here prev (c :: l) tail H).
    apply IH; [exact Hl|]. left. cbn.
    now destruct (Ascii.eqb_spec c LF).
Qed.

Lemma skip_last_line l :
  lf_free l -> forall prev fuel,
  line_start prev = false \/ is_marker l = false ->
  findall_from fuel prev l = [].
Proof.
  induction l as [|c l IH]; intros Hl prev fuel H.
  - destruct fuel; [reflexivity|]. rewrite findall_from_step.
    unfold match_at. now rewrite andb_false_r.
  - apply lf_free_tail in Hl as [Hc Hl].
    destruct fuel; [reflexivity|]. rewrite findall_from_step.
    assert (match_at prev (c :: l) = None) as ->.
    { unfold match_at. fold (is_marker (c :: l)).
      destruct H as [-> | ->]; [reflexivity|]. now rewrite andb_false_r. }
    apply IH; [exact Hl|]. left. cbn.
    now destruct (Ascii.eqb_spec c LF).
Qed.

Lemma marker_shape l : is_marker l = true -> l = lit "X:" ++ skipn 2 l.
Proof.
  unfold is_marker. destruct l as [|a [|b l]].
  - discriminate.
  - change (startswith (lit "X:") [a]) with (Ascii.eqb "X" a && false).
    now rewrite andb_false_r.
  - change (startswith (lit "X:") (a :: b :: l))
      with (Ascii.eqb "X" a && (Ascii.eqb ":" b && true)).
    destruct (Ascii.eqb_spec "X" a) as [<-|]; [|discriminate].
    destruct (Ascii.eqb_spec ":" b) as [<-|]; [|discriminate]. reflexivity.
Qed.

(** A marker line at a line start opens a match that runs to the line feed
    before the next marker line, or to the end of the text. *)
Lemma match_marker_line prev l r :
  line_start prev = true -> is_marker l = true ->
  lf_free l -> Forall lf_free r ->
  match_at prev (unlines (l :: r))
  = Some (unlines (l :: until_marker r), lf_cat (from_marker r)).
Proof.
  intros Hp Hm Hl Hr. rewrite !unlines_cons. unfold match_at. rewrite Hp.
  assert (startswith (lit "X:") (l ++ lf_cat r) = true) as ->.
  { destruct r as [|m r].
    - cbn [lf_cat flat_map]. rewrite app_nil_r. exact Hm.
    - rewrite lf_cat_cons, marker_in_text. exact Hm. }
  cbn [andb]. rewrite (marker_shape l Hm) at 1.
  change (skipn 2 ((lit "X:" ++ skipn 2 l) ++ lf_cat r)) with (skipn 2 l ++ lf_cat r).
  assert (lf_free (skipn 2 l)) as Hl2.
  { intros H. apply Hl. rewrite (marker_shape l Hm). now do 2 right. }
  rewrite (lazy_any_line _ _ Hl2), (lazy_any_lines r Hr). cbn [fst snd].
  rewrite app_assoc, <- (marker_shape l Hm). reflexivity.
Qed.

Lemma unlines_length_cons l r :
  length (unlines (l :: r)) = length l + length (lf_cat r).
Proof. rewrite unlines_cons. apply length_app. Qed.

Lemma findall_lines n :
  forall ls, length ls <= n -> Forall lf_free ls ->
  forall prev fuel, line_start prev = true ->
  length (unlines ls) < fuel ->
  findall_from fuel prev (unlines ls) = map unlines (blocks_of_lines ls).
Proof.
  induction n as [|n IH]; intros ls Hn Hls prev fuel Hp Hf.
  { destruct ls; [|cbn in Hn; lia]. apply findall_from_nil. }
  destruct ls as [|l r].
  { apply findall_from_nil. }
  inversion Hls as [|? ? Hl Hr]; subst. cbn [length] in Hn.
  cbn [blocks_of_lines]. destruct (is_marker l) eqn:Hm.
  - (* a marker line: one block, then the scan resumes at the next one *)
    destruct fuel as [|fuel]; [lia|]. rewrite findall_from_step.
    rewrite (match_marker_line prev l r Hp Hm Hl Hr). cbn [map]. f_equal.
    rewrite <- (blocks_from_marker r).
    rewrite unlines_length_cons in Hf.
    rewrite <- (until_from_marker r), lf_cat_app, length_app in Hf.
    pose proof (from_marker_length r) as Hlen.
    assert (2 <= length l) as Hl2.
    { rewrite (marker_shape l Hm), length_app. cbn. lia. }
    destruct (from_marker r) as [|m r3] eqn:E.
    + apply findall_from_nil.
    + rewrite lf_cat_cons in Hf |- *. cbn [length] in Hf.
      destruct fuel as [|fuel]; [lia|]. rewrite findall_from_step.
      assert (forall p t, match_at p (LF :: t) = None) as ->.
      { intros p t. unfold match_at. now rewrite andb_false_r. }
      apply IH.
      * cbn [length] in Hlen |- *. lia.
      * rewrite <- E. clear -Hr. induction Hr as [|x xs Hx Hxs IHr]; cbn.
        -- constructor.
        -- destruct (is_marker x); [now constructor|exact IHr].
      * apply Ascii.eqb_refl.
      * lia.
  - (* any other line is passed over *)
    destruct r as [|m r].
    + cbn [unlines join]. apply skip_last_line; [exact Hl|now right].
    + rewrite unlines_cons, lf_cat_cons.
      rewrite unlines_length_cons, lf_cat_cons in Hf. cbn [length] in Hf.
      replace fuel with (S (length l) + (fuel - S (length l))) by lia.
      rewrite skip_line; [|exact Hl|now right].
      apply IH; [cbn [length] in *; lia|exact Hr|apply Ascii.eqb_refl|lia].
Qed.

End SegmenterFacts.

(** C1.  For every text, [findall] yields one block per line that begins
    with ["X:"] (none when there is no such line), in the order of the text;
    each block is its marker line and the lines after it up to, and not
    including, the next marker line or the end of the text, and the lines
    before the first marker line yield no block. *)
Theorem segmenter_one_block_per_marker (content : str) :
  TUNE_BLOCK_REGEX.findall content
  = map unlines (blocks_of_lines (text_lines content))
  /\ length (TUNE_BLOCK_REGEX.findall content)
     = length (filter is_marker (text_lines content))
  /\ unlines (text_lines content) = content.
Proof.
  assert (TUNE_BLOCK_REGEX.findall content
          = map unlines (blocks_of_lines (text_lines content))) as E.
  { unfold TUNE_BLOCK_REGEX.findall.
    rewrite <- (join_split Str.LF content) at 1 2.
    apply (findall_lines (length (text_lines content))).
    - apply le_n.
    - apply split_sep_free.
    - reflexivity.
    - apply Nat.lt_succ_diag_r. }
  split; [exact E|]. split.
  - now rewrite E, length_map, blocks_count.
  - apply join_split.
Qed.

(** ** Field Extractor *)

Section ExtractorFacts.

Lemma parse_line_tagged f c rest :
  parse_line f (c :: ":" :: rest) = Ok (apply_line f (c :: ":" :: rest)).
Proof.
  destruct c as [[] [] [] [] [] [] [] []]; reflexivity.
Qed.

(** No line makes the loop body raise. *)
Lemma parse_line_ok f line : parse_line f line = Ok (apply_line f line).
Proof.
  destruct line as [|c0 [|c1 rest]]; try reflexivity.
  destruct (Ascii.eqb_spec c1 ":") as [->|Hc].
  - apply parse_line_tagged.
  - unfold parse_line, apply_line, tag_of_line. cbn [length Nat.leb getitem nth_error rbind].
    destruct (Ascii.eqb_spec c1 ":"); [contradiction|reflexivity].
Qed.

Lemma for_lines_ok lines : forall f,
  for_lines f lines = Ok (fold_left apply_line lines f).
Proof.
  induction lines as [|l ls IH]; intro f; [reflexivity|].
  cbn [for_lines fold_left]. rewrite parse_line_ok. cbn [rbind]. apply IH.
Qed.

Lemma scalar_apply_line t f l :
  t <> TagT ->
  scalar t (apply_line f l)
  = if has_tag t l then Some (value_of l) else scalar t f.
Proof.
  intros Ht. unfold has_tag, apply_line.
  destruct (tag_of_line l) as [[]|]; destruct t; try reflexivity;
    now destruct Ht.
Qed.

Lemma titles_apply_line f l :
  titles (apply_line f l)
  = titles f ++ (if has_tag TagT l then [value_of l] else []).
Proof.
  unfold has_tag, apply_line.
  destruct (tag_of_line l) as [[]|]; cbn; now rewrite ?app_nil_r.
Qed.

Lemma text_apply_line f l :
  tune_text (apply_line f l) = tune_text f /\ title (apply_line f l) = title f.
Proof.
  unfold apply_line. destruct (tag_of_line l) as [[]|]; now split.
Qed.

Lemma last_default {A} (v : A) vs d d' : last (v :: vs) d = last (v :: vs) d'.
Proof.
  revert v. induction vs as [|w vs IH]; intro v; [reflexivity|].
  change (last (w :: vs) d = last (w :: vs) d'). apply IH.
Qed.

Lemma last_some {A} (v : A) vs d : last (map Some (v :: vs)) d = Some (last vs v).
Proof.
  revert v. induction vs as [|w vs IH]; intro v; [reflexivity|].
  change (last (map Some (v :: w :: vs)) d) with (last (map Some (w :: vs)) d).
  rewrite IH. f_equal.
  change (last (w :: vs) v) with (last (w :: vs) v).
  destruct vs as [|u vs]; [reflexivity|].
  change (last (u :: vs) w = last (u :: vs) v). apply last_default.
Qed.

Lemma last_value_cons t l ls :
  last_value t (l :: ls)
  = match last_value t ls with
    | Some v => Some v
    | None => if has_tag t l then Some (value_of l) else None
    end.
Proof.
  unfold last_value, tag_values. cbn [filter].
  destruct (has_tag t l).
  - cbn [map]. destruct (map value_of (filter (has_tag t) ls)) as [|v vs].
    + reflexivity.
    + change (last (Some (value_of l) :: map Some (v :: vs)) None)
        with (last (map Some (v :: vs)) None).
      now rewrite last_some.
  - now destruct (last (map Some (map value_of (filter (has_tag t) ls))) None).
Qed.

Lemma scalar_fold t ls : forall f,
  t <> TagT ->
  scalar t (fold_left apply_line ls f)
  = match last_value t ls with
    | Some v => Some v
    | None => scalar t f
    end.
Proof.
  induction ls as [|l ls IH]; intros f Ht; [reflexivity|].
  cbn [fold_left]. rewrite IH by exact Ht.
  rewrite last_value_cons, scalar_apply_line by exact Ht.
  destruct (last_value t ls); [reflexivity|]. now destruct (has_tag t l).
Qed.

Lemma titles_fold ls : forall f,
  titles (fold_left apply_line ls f) = titles f ++ tag_values TagT ls.
Proof.
  induction ls as [|l ls IH]; intro f.
  - cbn. now rewrite app_nil_r.
  - cbn [fold_left]. rewrite IH, titles_apply_line, <- app_assoc.
    unfold tag_values. cbn [filter]. now destruct (has_tag TagT l).
Qed.

Lemma text_fold ls : forall f,
  tune_text (fold_left apply_line ls f) = tune_text f
  /\ title (fold_left apply_line ls f) = title f.
Proof.
  induction ls as [|l ls IH]; intro f; [now split|].
  cbn [fold_left]. destruct (IH (apply_line f l)) as [-> ->].
  apply text_apply_line.
Qed.

Lemma parse_tune_block_spec block :
  parse_tune_block block
  = Ok (record_of_lines (Str.strip block) (block_lines block)).
Proof.
  unfold parse_tune_block. rewrite for_lines_ok. cbn [rbind].
  fold (block_lines block).
  set (f0 := mk_tune None [] None None None None None (Str.strip block) None).
  set (f := fold_left apply_line (block_lines block) f0).
  assert (forall t, t <> TagT -> scalar t f = last_value t (block_lines block)) as Hs.
  { intros t Ht. unfold f. rewrite scalar_fold by exact Ht.
    destruct (last_value t (block_lines block)); [reflexivity|now destruct t]. }
  assert (titles f = tag_values TagT (block_lines block)) as Ht.
  { unfold f. now rewrite titles_fold. }
  assert (tune_text f = Str.strip block) as Hx.
  { unfold f. now rewrite (proj1 (text_fold _ _)). }
  unfold record_of_lines, set_title. rewrite Ht, Hx. f_equal.
  f_equal; [apply (Hs TagX)|apply (Hs TagC)|apply (Hs TagR)|apply (Hs TagM)
           |apply (Hs TagL)|apply (Hs TagK)]; discriminate.
Qed.

End ExtractorFacts.

(** C2.  For every block, each scalar field ([x_number], [composer],
    [rhythm], [meter], [unit_length], [key]) holds the value of the last line
    of the block that carries its tag, later lines overwriting earlier ones,
    and is absent when no line carries it; [titles] holds the values of all
    the [T:] and [t:] lines in their order of appearance. *)
Theorem scalars_last_titles_all (block : str) :
  exists r,
    parse_tune_block block = Ok r
    /\ x_number r = last_value TagX (block_lines block)
    /\ composer r = last_value TagC (block_lines block)
    /\ rhythm r = last_value TagR (block_lines block)
    /\ meter r = last_value TagM (block_lines block)
    /\ unit_length r = last_value TagL (block_lines block)
    /\ key r = last_value TagK (block_lines block)
    /\ titles r = tag_values TagT (block_lines block).
Proof.
  eexists. split; [apply parse_tune_block_spec|]. cbn. repeat split.
Qed.

(** C5.  For every record of the extractor, [title] is the elements of
    [titles] joined with [" / "] when [titles] is not empty and is absent
    exactly when [titles] is empty; two records with the same [titles] have
    the same [title], and no line of the loop writes [title]. *)
Theorem title_is_joined_titles (block : str) :
  exists r,
    parse_tune_block block = Ok r
    /\ title r = match titles r with
                 | [] => None
                 | _ :: _ => Some (Str.join (lit " / ") (titles r))
                 end
    /\ (title r = None <-> titles r = [])
    /\ (forall block' r', parse_tune_block block' = Ok r' ->
        titles r' = titles r -> title r' = title r)
    /\ (forall f line, exists f',
        parse_line f line = Ok f' /\ title f' = title f).
Proof.
  eexists. split; [apply parse_tune_block_spec|]. cbn. repeat split.
  - destruct (tag_values TagT (block_lines block)); [reflexivity|discriminate].
  - intros ->. reflexivity.
  - intros block' r' H E. rewrite parse_tune_block_spec in H.
    injection H as <-. cbn in E |- *. now rewrite E.
  - intros f line. exists (apply_line f line).
    split; [apply parse_line_ok|apply text_apply_line].
Qed.

Section UnrecognisedLines.

Lemma has_tag_recognised t l : has_tag t l = true -> recognised l = true.
Proof.
  unfold has_tag, recognised. now destruct (tag_of_line l).
Qed.

Lemma untagged_unrecognised l : is_tagged l = false -> recognised l = false.
Proof.
  unfold is_tagged, recognised, tag_of_line.
  destruct l as [|c0 [|c1 l]]; try reflexivity. now intros ->.
Qed.

Lemma filter_tag_recognised t ls :
  filter (has_tag t) (filter recognised ls) = filter (has_tag t) ls.
Proof.
  induction ls as [|l ls IH]; [reflexivity|]. cbn [filter].
  destruct (recognised l) eqn:E.
  - cbn [filter]. now rewrite IH.
  - rewrite IH. destruct (has_tag t l) eqn:Ht; [|reflexivity].
    apply has_tag_recognised in Ht. congruence.
Qed.

Lemma record_recognised text ls :
  record_of_lines text (filter recognised ls) = record_of_lines text ls.
Proof.
  unfold record_of_lines, last_value, tag_values.
  now rewrite !filter_tag_recognised.
Qed.

Lemma filter_none {A} (p : A -> bool) ls :
  forallb (fun l => negb (p l)) ls = true -> filter p ls = [].
Proof.
  induction ls as [|l ls IH]; [reflexivity|]. cbn.
  destruct (p l); [discriminate|exact IH].
Qed.

End UnrecognisedLines.

(** C6.  For every string, the extractor returns a record and raises
    nothing; the lines that carry none of the seven tags leave the fields as
    they are, so the record is the one of the recognised lines alone, with
    the trimmed block as [tune_text]; in particular a block with no tagged
    line yields the record with every field absent, no title, and the
    trimmed block as [tune_text]. *)
Theorem extractor_total_and_permissive (block : str) :
  exists r,
    parse_tune_block block = Ok r
    /\ tune_text r = Str.strip block
    /\ (forall f line, recognised line = false -> parse_line f line = Ok f)
    /\ r = record_of_lines (Str.strip block)
                           (filter recognised (block_lines block))
    /\ (forallb (fun l => negb (is_tagged l)) (block_lines block) = true ->
        r = mk_tune None [] None None None None None (Str.strip block) None).
Proof.
  eexists. split; [apply parse_tune_block_spec|]. repeat split.
  - intros f line H. rewrite parse_line_ok. unfold apply_line.
    unfold recognised in H. now destruct (tag_of_line line).
  - now rewrite record_recognised.
  - intros H. rewrite <- record_recognised.
    assert (filter recognised (block_lines block) = []) as ->; [|reflexivity].
    apply filter_none. rewrite forallb_forall in H |- *.
    intros l Hl. specialize (H l Hl).
    rewrite untagged_unrecognised; [reflexivity|].
    now destruct (is_tagged l).
Qed.

Lemma extractor_total_and_permissive_witness :
  exists r,
    parse_tune_block (lit "  no header here  ") = Ok r
    /\ r = mk_tune None [] None None None None None (lit "no header here") None.
Proof.
  destruct (extractor_total_and_permissive (lit "  no header here  "))
    as (r & Hr & _ & _ & _ & Hblank).
  exists r. split; [exact Hr|]. apply Hblank. reflexivity.
Defined.

(** ** Trimming and line splitting around a line start *)

Section StripFacts.
Import Str.

Lemma dropwhile_app_stop p a c b :
  p c = false ->
  dropwhile p (a ++ c :: b) = dropwhile p a ++ c :: b.
Proof.
  intros Hc. induction a as [|x a IH].
  - cbn. now rewrite Hc.
  - cbn [app dropwhile]. destruct (p x); [exact IH|reflexivity].
Qed.

Lemma dropwhile_all p s : forallb p s = true -> dropwhile p s = [].
Proof.
  induction s as [|c s IH]; [reflexivity|]. cbn.
  destruct (p c); [exact IH|discriminate].
Qed.

(** Trimming on the right stops at a character that is no blank. *)
Lemma rstrip_app_stop a c b :
  isspace c = false -> rstrip (a ++ c :: b) = a ++ c :: rstrip b.
Proof.
  intros Hc. unfold rstrip.
  rewrite rev_app_distr. cbn [rev]. rewrite <- app_assoc. cbn [app].
  rewrite (dropwhile_app_stop isspace (rev b) c (rev a) Hc).
  rewrite rev_app_distr. cbn [rev]. rewrite rev_involutive, <- app_assoc.
  reflexivity.
Qed.

Lemma lstrip_app_stop a c b :
  isspace c = false -> lstrip (a ++ c :: b) = lstrip a ++ c :: b.
Proof. apply dropwhile_app_stop. Qed.

Lemma strip_all_space s : forallb isspace s = true -> strip s = [].
Proof.
  intros H. unfold strip, lstrip. now rewrite dropwhile_all.
Qed.

(** What is left of a text that ends a line is empty or ends that line. *)
Lemma dropwhile_line_end p a :
  dropwhile p (a ++ [LF]) = [] \/ exists q, dropwhile p (a ++ [LF]) = q ++ [LF].
Proof.
  induction a as [|x a IH].
  - cbn. destruct (p LF); [now left|right; now exists []].
  - cbn [app dropwhile]. destruct (p x); [exact IH|].
    right. now exists (x :: a).
Qed.

(** The trimmed block around a line that begins with two characters that
    are no blanks. *)
Lemma strip_around_line head c0 c1 w :
  isspace c0 = false -> isspace c1 = false ->
  strip (head ++ LF :: c0 :: c1 :: w)
  = lstrip (head ++ [LF]) ++ c0 :: c1 :: rstrip w.
Proof.
  intros H0 H1. unfold strip.
  change (head ++ LF :: c0 :: c1 :: w) with (head ++ [LF] ++ c0 :: c1 :: w).
  rewrite app_assoc, (lstrip_app_stop _ c0 _ H0).
  change (lstrip (head ++ [LF]) ++ c0 :: c1 :: w)
    with (lstrip (head ++ [LF]) ++ [c0] ++ c1 :: w).
  rewrite app_assoc, (rstrip_app_stop _ c1 _ H1), <- app_assoc.
  reflexivity.
Qed.

Lemma splitlines_nil_inv s : splitlines s = [] -> s = [].
Proof.
  destruct s as [|c r]; [reflexivity|]. cbn [splitlines].
  destruct (islinebreak c).
  - destruct r as [|d r']; [discriminate|].
    destruct (Ascii.eqb c CR && Ascii.eqb d LF); discriminate.
  - destruct (splitlines r); discriminate.
Qed.

(** The lines before a line feed are not changed by what follows it. *)
Lemma splitlines_after_lf n : forall q s,
  length q <= n ->
  splitlines (q ++ LF :: s) = splitlines (q ++ [LF]) ++ splitlines s.
Proof.
  induction n as [|n IH]; intros q s Hq.
  - destruct q; [|cbn in Hq; lia]. cbn [app].
    destruct s as [|d s]; reflexivity.
  - destruct q as [|c q]; [destruct s; reflexivity|]. cbn [length] in Hq.
    cbn [app splitlines]. destruct (islinebreak c).
    + destruct q as [|d q].
      * cbn [app]. destruct (Ascii.eqb c CR); cbn [andb Ascii.eqb].
        -- reflexivity.
        -- destruct s; reflexivity.
      * cbn [app]. cbn [length] in Hq.
        destruct (Ascii.eqb c CR && Ascii.eqb d LF).
        -- rewrite (IH q s) by lia. reflexivity.
        -- change (d :: q ++ LF :: s) with ((d :: q) ++ LF :: s).
           rewrite (IH (d :: q) s) by (cbn; lia). reflexivity.
    + rewrite (IH q s) by lia.
      destruct (splitlines (q ++ [LF])) as [|l ls] eqn:E.
      * apply splitlines_nil_inv in E. now destruct q.
      * reflexivity.
Qed.

(** The first line of a text that begins with two characters that are no
    line boundaries. *)
Lemma splitlines_two c0 c1 w :
  islinebreak c0 = false -> islinebreak c1 = false ->
  splitlines (c0 :: c1 :: w)
  = (c0 :: c1 :: hd [] (splitlines w)) :: tl (splitlines w).
Proof.
  intros H0 H1. cbn [splitlines]. rewrite H0, H1.
  now destruct (splitlines w).
Qed.

End StripFacts.

Section MarkerFacts.
Import Str TUNE_BLOCK_REGEX.

Lemma findall_unlines ls :
  Forall lf_free ls -> findall (unlines ls) = map unlines (blocks_of_lines ls).
Proof.
  intros H. unfold findall.
  apply (findall_lines (length ls)); [apply le_n|exact H|reflexivity|].
  apply Nat.lt_succ_diag_r.
Qed.

Lemma until_marker_app_marker a m rest :
  is_marker m = true -> until_marker (a ++ m :: rest) = until_marker a.
Proof.
  intros Hm. induction a as [|l a IH]; cbn [app until_marker].
  - now rewrite Hm.
  - destruct (is_marker l); [reflexivity|now rewrite IH].
Qed.

Lemma blocks_app_marker a m rest :
  is_marker m = true ->
  blocks_of_lines (a ++ m :: rest)
  = blocks_of_lines a ++ blocks_of_lines (m :: rest).
Proof.
  intros Hm. induction a as [|l a IH]; [reflexivity|].
  cbn [app blocks_of_lines]. rewrite IH.
  destruct (is_marker l); [|reflexivity].
  now rewrite (until_marker_app_marker a m rest Hm).
Qed.

Lemma until_marker_plain a rest :
  forallb (fun l => negb (is_marker l)) a = true ->
  until_marker (a ++ rest) = a ++ until_marker rest.
Proof.
  induction a as [|l a IH]; [reflexivity|]. cbn [forallb app until_marker].
  destruct (is_marker l); [discriminate|]. intros H. now rewrite IH.
Qed.

Lemma blocks_plain a rest :
  forallb (fun l => negb (is_marker l)) a = true ->
  blocks_of_lines (a ++ rest) = blocks_of_lines rest.
Proof.
  induction a as [|l a IH]; [reflexivity|]. cbn [forallb app blocks_of_lines].
  destruct (is_marker l); [discriminate|]. exact IH.
Qed.

Lemma last_app_cons {A} (a : list A) b c d : last (a ++ b :: c) d = last c b.
Proof.
  induction a as [|x a IH].
  - cbn [app]. destruct c as [|y c]; [reflexivity|].
    change (last (b :: y :: c) d) with (last (y :: c) d).
    apply last_default.
  - change (last ((x :: a) ++ b :: c) d) with
      (match a ++ b :: c with [] => x | _ :: _ => last (a ++ b :: c) d end).
    rewrite IH. now destruct a.
Qed.

(** The value a tag ends with, from one of its lines on. *)
Lemma last_value_from_line t ls1 l ls2 :
  has_tag t l = true ->
  last_value t (ls1 ++ l :: ls2)
  = Some (last (tag_values t ls2) (value_of l)).
Proof.
  intros Hl. unfold last_value, tag_values.
  rewrite filter_app. cbn [filter]. rewrite Hl.
  rewrite !map_app. cbn [map]. rewrite last_app_cons.
  destruct (map value_of (filter (has_tag t) ls2)) as [|u us]; [reflexivity|].
  rewrite last_some. f_equal. destruct us as [|u' us]; [reflexivity|].
  change (last (u' :: us) u = last (u' :: us) (value_of l)).
  apply last_default.
Qed.

(** The lines of a block around a line, after a line feed, that begins
    with a letter and a colon. *)
Lemma block_lines_around head c0 w :
  isspace c0 = false -> islinebreak c0 = false ->
  block_lines (head ++ LF :: c0 :: ":" :: w)
  = splitlines (lstrip (head ++ [LF]))
    ++ (c0 :: ":" :: hd [] (splitlines (rstrip w)))
    :: tl (splitlines (rstrip w)).
Proof.
  intros Hs Hb. unfold block_lines.
  rewrite (strip_around_line head c0 ":" w Hs eq_refl).
  rewrite <- (splitlines_two c0 ":" (rstrip w) Hb eq_refl).
  destruct (dropwhile_line_end isspace head) as [E|[q E]];
    unfold lstrip; rewrite E.
  - reflexivity.
  - rewrite <- app_assoc. cbn [app].
    apply (splitlines_after_lf (length q)). apply le_n.
Qed.

End MarkerFacts.

(** C9.  In every text, a line that begins with lower-case ["x:"] and comes
    after a record-start marker opens no block: it lies inside the block of
    the marker line before it.  The extractor upper-cases its tag to ["X"],
    so [x_number] of that block is the value of the ["x:"] line (or of a
    later line of the block that carries the tag again) and no longer the
    value of the leading ["X:"] line. *)
Theorem lowercase_x_line_overwrites
  (before between after : list str) (m v : str) :
  Forall lf_free (before ++ m :: between ++ (lit "x:" ++ v) :: after) ->
  is_marker m = true ->
  forallb (fun l => negb (is_marker l)) between = true ->
  let content := unlines (before ++ m :: between ++ (lit "x:" ++ v) :: after) in
  let w := v ++ lf_cat (until_marker after) in
  let block := unlines (m :: between) ++ Str.LF :: lit "x:" ++ w in
  let line := hd [] (Str.splitlines (Str.rstrip w)) in
  let later := tl (Str.splitlines (Str.rstrip w)) in
  TUNE_BLOCK_REGEX.findall content
  = map unlines (blocks_of_lines before)
    ++ block :: map unlines (blocks_of_lines after)
  /\ is_marker (lit "x:" ++ v) = false
  /\ tag_is (Str.upper "x") "X" = true
  /\ exists r,
      parse_tune_block block = Ok r
      /\ x_number r = Some (last (tag_values TagX later) (Str.strip line)).
Proof.
  intros Hfree Hm Hbetween content w block line later.
  split; [|split; [reflexivity|split; [reflexivity|]]].
  - unfold content. rewrite (findall_unlines _ Hfree).
    rewrite (blocks_app_marker before m _ Hm), map_app. f_equal.
    cbn [blocks_of_lines]. rewrite Hm. cbn [map].
    change (between ++ (lit "x:" ++ v) :: after)
      with (between ++ [lit "x:" ++ v] ++ after).
    rewrite app_assoc.
    assert (forallb (fun l => negb (is_marker l)) (between ++ [lit "x:" ++ v]) = true)
      as Hplain.
    { rewrite forallb_app, Hbetween. reflexivity. }
    rewrite (until_marker_plain _ after Hplain), (blocks_plain _ after Hplain).
    f_equal. unfold block, w. rewrite !unlines_cons, !lf_cat_app.
    cbn [lf_cat flat_map]. rewrite app_nil_r, <- !app_assoc. reflexivity.
  - eexists. split; [apply parse_tune_block_spec|]. cbn [x_number record_of_lines].
    unfold block.
    change (unlines (m :: between) ++ Str.LF :: lit "x:" ++ w)
      with (unlines (m :: between) ++ Str.LF :: "x" :: ":" :: w).
    rewrite (block_lines_around _ "x" w eq_refl eq_refl).
    rewrite last_value_from_line by reflexivity.
    reflexivity.
Qed.

(** Lines written out in full hold no line feed. *)
Ltac solve_lf_free :=
  repeat (apply Forall_cons || apply Forall_nil);
  unfold lf_free; cbn;
  repeat (let H := fresh in intros [H|H]; [discriminate H|revert H]);
  intros [].

Lemma lowercase_x_line_overwrites_witness :
  TUNE_BLOCK_REGEX.findall
    (unlines [lit "% tunes"; lit "X:1"; lit "T:A"; lit "x:2"; lit "K:D"; lit "X:3"])
  = [unlines [lit "X:1"; lit "T:A"; lit "x:2"; lit "K:D"]; lit "X:3"]
  /\ exists r,
      parse_tune_block (unlines [lit "X:1"; lit "T:A"; lit "x:2"; lit "K:D"]) = Ok r
      /\ x_number r = Some (lit "2").
Proof.
  destruct (lowercase_x_line_overwrites
              [lit "% tunes"] [lit "T:A"] [lit "K:D"; lit "X:3"]
              (lit "X:1") (lit "2"))
    as (E & _ & _ & r & Hr & Hx).
  - solve_lf_free.
  - reflexivity.
  - reflexivity.
  - split; [exact E|]. exists r. split; [exact Hr|exact Hx].
Defined.

(** ** Queries *)

Section QueryFacts.

Lemma select_map (f : TuneRow.t -> bool) df : select df (map f df) = filter f df.
Proof.
  induction df as [|r df IH]; [reflexivity|]. cbn.
  destruct (f r); now rewrite IH.
Qed.

(** A pattern without special characters is compiled to its characters. *)
Lemma compile_plain pat :
  forallb (fun c => negb (re.special c)) pat = true ->
  re.compile pat = Some (map re.Char pat).
Proof.
  induction pat as [|c pat IH]; [reflexivity|]. cbn [forallb re.compile map].
  intros H. apply andb_prop in H as [Hc Hpat]. rewrite (IH Hpat).
  assert (Ascii.eqb c "." = false) as ->.
  { destruct (Ascii.eqb_spec c "."); [subst; discriminate|reflexivity]. }
  now destruct (re.special c).
Qed.

Lemma match_here_plain pat s :
  re.match_here (map re.Char pat) s = Str.startswith pat s.
Proof.
  revert s. induction pat as [|c pat IH]; intros [|d s]; try reflexivity.
  cbn. now rewrite IH.
Qed.

(** Such a pattern is found exactly where it occurs as a substring. *)
Lemma search_plain pat s : re.search (map re.Char pat) s = Str.contains pat s.
Proof.
  induction s as [|d s IH].
  - cbn. now rewrite match_here_plain.
  - cbn [re.search Str.contains]. now rewrite match_here_plain, IH.
Qed.

Lemma contains_plain pat cells :
  forallb (fun c => negb (re.special c)) pat = true ->
  str_contains pat cells = Some (map (Str.contains pat) cells).
Proof.
  intros H. unfold str_contains. rewrite (compile_plain pat H). f_equal.
  apply map_ext. intros s. apply search_plain.
Qed.

(** For a term whose lower-case form has no special character, the two
    filters keep the rows whose cell contains the term, case folded. *)
Lemma get_tunes_by_type_plain df term :
  forallb (fun c => negb (re.special c)) (Str.lower term) = true ->
  get_tunes_by_type df term
  = Some (filter (fun r => Str.contains (Str.lower term)
                             (Str.lower (fillna [] (TuneRow.rhythm r)))) df).
Proof.
  intros H. unfold get_tunes_by_type. rewrite (contains_plain _ _ H).
  rewrite map_map. now rewrite select_map.
Qed.

Lemma search_tunes_plain df term :
  forallb (fun c => negb (re.special c)) (Str.lower term) = true ->
  search_tunes df term
  = Some (filter (fun r => Str.contains (Str.lower term)
                             (Str.lower (fillna [] (TuneRow.title r)))) df).
Proof.
  intros H. unfold search_tunes. rewrite (contains_plain _ _ H).
  rewrite map_map. now rewrite select_map.
Qed.

End QueryFacts.

(** C3 (the code departs from the specification).  The term ["."] occurs
    neither in the rhythm ["reel"] nor in the title ["Cooley's"], yet both
    filters keep the row: the term is compiled as a pattern, in which the dot
    matches any character. *)
Theorem term_is_read_as_pattern :
  get_tunes_by_type [one_reel] (lit ".") = Some [one_reel]
  /\ Str.contains (Str.lower (lit "."))
                  (Str.lower (fillna [] (TuneRow.rhythm one_reel))) = false
  /\ search_tunes [one_reel] (lit ".") = Some [one_reel]
  /\ Str.contains (Str.lower (lit "."))
                  (Str.lower (fillna [] (TuneRow.title one_reel))) = false.
Proof. repeat split. Qed.

(** ** Counting and ranking *)

Section CountingFacts.

Lemma str_eqb_neq (a b : str) : str_eqb a b = false <-> a <> b.
Proof.
  unfold str_eqb. destruct (list_eq_dec ascii_dec a b); split; congruence.
Qed.

Lemma count_pos v col : 0 < count v col <-> In v col.
Proof.
  unfold count. induction col as [|u col IH]; cbn.
  - split; [lia|intros []].
  - destruct (str_eqb v u) eqn:E.
    + apply str_eqb_eq in E. subst. cbn. split; [now left|lia].
    + apply str_eqb_neq in E. rewrite IH.
      split; [now right|]. intros [H|H]; [congruence|exact H].
Qed.

Lemma firsts_In v col : In v (firsts col) <-> In v col.
Proof.
  induction col as [|u col IH]; [reflexivity|]. cbn [firsts In].
  rewrite filter_In, IH. destruct (str_eqb u v) eqn:E.
  - apply str_eqb_eq in E. tauto.
  - apply str_eqb_neq in E. cbn. tauto.
Qed.

Lemma firsts_NoDup col : NoDup (firsts col).
Proof.
  induction col as [|u col IH]; cbn [firsts]; constructor.
  - rewrite filter_In. intros [_ H]. now rewrite str_eqb_refl in H.
  - now apply NoDup_filter.
Qed.

Lemma sorted_filter {A} (R : A -> A -> Prop) p l :
  StronglySorted R l -> StronglySorted R (filter p l).
Proof.
  induction 1 as [|a l Hl IH Ha]; cbn; [constructor|].
  destruct (p a); [|exact IH]. constructor; [exact IH|].
  rewrite Forall_forall in Ha |- *. intros x Hx.
  apply filter_In in Hx as [Hx _]. now apply Ha.
Qed.

Lemma sorted_within {A} (R R' : A -> A -> Prop) l :
  (forall a b, In a l -> In b l -> R a b -> R' a b) ->
  StronglySorted R l -> StronglySorted R' l.
Proof.
  intros HR H. induction H as [|a l Hl IH Ha]; constructor.
  - apply IH. intros x y Hx Hy. apply HR; now right.
  - rewrite Forall_forall in Ha |- *. intros x Hx.
    apply HR; [now left|now right|now apply Ha].
Qed.

Lemma sorted_map {A B} (f : A -> B) (R : B -> B -> Prop) l :
  StronglySorted (fun a b => R (f a) (f b)) l -> StronglySorted R (map f l).
Proof.
  induction 1 as [|a l Hl IH Ha]; cbn; constructor; [exact IH|].
  rewrite Forall_forall in Ha |- *. intros y Hy.
  apply in_map_iff in Hy as (x & <- & Hx). now apply Ha.
Qed.

(** The distinct values are listed in the order of their first
    appearance. *)
Lemma firsts_in_order col :
  StronglySorted (fun a b => first_seen a col < first_seen b col) (firsts col).
Proof.
  induction col as [|u col IH]; cbn [firsts]; constructor.
  - apply (sorted_within (fun a b => first_seen a col < first_seen b col)).
    + intros a b Ha Hb Hab.
      apply filter_In in Ha as [_ Ha]. apply filter_In in Hb as [_ Hb].
      cbn [first_seen]. apply negb_true_iff in Ha, Hb. rewrite Ha, Hb. lia.
    + now apply sorted_filter.
  - rewrite Forall_forall. intros x Hx. apply filter_In in Hx as [_ Hx].
    apply negb_true_iff in Hx. cbn [first_seen].
    rewrite str_eqb_refl, Hx. lia.
Qed.

Lemma insert_desc_perm e l : Permutation (insert_desc e l) (e :: l).
Proof.
  induction l as [|h t IH]; [reflexivity|]. cbn [insert_desc].
  destruct (snd e <? snd h); [|reflexivity].
  rewrite IH. apply perm_swap.
Qed.

Lemma sort_values_perm l : Permutation (sort_values_desc l) l.
Proof.
  induction l as [|e l IH]; [reflexivity|]. cbn [sort_values_desc fold_right].
  fold (sort_values_desc l). rewrite insert_desc_perm. now constructor.
Qed.

Lemma insert_desc_sorted idx e l :
  StronglySorted (ranks_before idx) l ->
  Forall (fun x => idx (fst e) < idx (fst x)) l ->
  StronglySorted (ranks_before idx) (insert_desc e l).
Proof.
  induction 1 as [|h t Ht IH Hh]; intros He; cbn [insert_desc].
  - repeat constructor.
  - inversion He as [|? ? Heh Het]; subst.
    destruct (snd e <? snd h) eqn:E.
    + apply Nat.ltb_lt in E. constructor; [now apply IH|].
      rewrite Forall_forall in Hh |- *. intros x Hx.
      apply (Permutation_in _ (insert_desc_perm e t)) in Hx as [<-|Hx].
      * now left.
      * now apply Hh.
    + apply Nat.ltb_ge in E. constructor; [now constructor|].
      rewrite Forall_forall in Hh, He |- *. intros x Hx.
      assert (snd x <= snd h) as Hle.
      { destruct Hx as [<-|Hx]; [lia|].
        destruct (Hh x Hx) as [H|[H _]]; lia. }
      specialize (He x Hx). unfold ranks_before.
      destruct (Nat.eq_dec (snd x) (snd e)); [right|left]; lia.
Qed.

(** The sort keeps the entries of equal count in the order it finds them. *)
Lemma sort_values_stable idx l :
  StronglySorted (fun a b => idx (fst a) < idx (fst b)) l ->
  StronglySorted (ranks_before idx) (sort_values_desc l).
Proof.
  induction 1 as [|e l Hl IH He]; [constructor|].
  cbn [sort_values_desc fold_right]. fold (sort_values_desc l).
  apply insert_desc_sorted; [exact IH|].
  rewrite Forall_forall in He |- *. intros x Hx. apply He.
  now apply (Permutation_in _ (sort_values_perm l)).
Qed.

Lemma value_counts_entries col v k :
  In (v, k) (value_counts col) <-> k = count v col /\ 0 < k.
Proof.
  unfold value_counts. split.
  - intros H. apply (Permutation_in _ (sort_values_perm _)) in H.
    apply in_map_iff in H as (u & [= <- <-] & Hu). split; [reflexivity|].
    apply count_pos. now apply firsts_In.
  - intros [-> Hk].
    apply (Permutation_in _ (Permutation_sym (sort_values_perm _))).
    apply in_map_iff. exists v. split; [reflexivity|].
    apply firsts_In. now apply count_pos.
Qed.

Lemma value_counts_NoDup col : NoDup (map fst (value_counts col)).
Proof.
  unfold value_counts.
  apply (Permutation_NoDup
           (Permutation_map fst (Permutation_sym (sort_values_perm _)))).
  rewrite map_map. cbn [fst]. rewrite map_id. apply firsts_NoDup.
Qed.

Lemma value_counts_ranked col :
  StronglySorted (ranks_before (fun v => first_seen v col)) (value_counts col).
Proof.
  unfold value_counts.
  apply (sort_values_stable (fun v => first_seen v col)).
  apply sorted_map. cbn [fst]. apply firsts_in_order.
Qed.

Lemma head_nat {A} n (l : list A) : head (Z.of_nat n) l = firstn n l.
Proof.
  unfold head. destruct (Z.leb_spec 0 (Z.of_nat n)); [|lia].
  now rewrite Nat2Z.id.
Qed.

End CountingFacts.

(** C7.  For every frame and every [n], [top_composers] counts the rows by
    composer, an absent composer under the label ["Unknown"]; it returns the
    first [n] entries of the ranking in which every label met has its number
    of rows, a larger count comes first, and labels of equal count stand in
    the order in which they are first met. *)
Theorem top_composers_ranking (df : DataFrame) (n : nat) :
  let comp := map composer_label df in
  exists ranking,
    top_composers df (Z.of_nat n) = firstn n ranking
    /\ (forall r, composer_label r
                  = match TuneRow.composer r with
                    | Some c => c
                    | None => lit "Unknown"
                    end)
    /\ NoDup (map fst ranking)
    /\ (forall v k, In (v, k) ranking <-> k = count v comp /\ 0 < k)
    /\ StronglySorted (ranks_before (fun v => first_seen v comp)) ranking.
Proof.
  intros comp. exists (value_counts comp).
  split; [|split; [|split; [|split]]].
  - unfold top_composers. apply head_nat.
  - intros r. unfold composer_label, fillna. reflexivity.
  - apply value_counts_NoDup.
  - intros v k. apply value_counts_entries.
  - apply value_counts_ranked.
Qed.

Section LabelFacts.

Lemma firsts_length col : length (firsts col) <= length col.
Proof.
  induction col as [|u col IH]; [apply le_n|]. cbn [firsts length].
  pose proof (filter_length_le (fun v => negb (str_eqb u v)) (firsts col)).
  lia.
Qed.

Lemma value_counts_length col : length (value_counts col) <= length col.
Proof.
  unfold value_counts. rewrite (Permutation_length (sort_values_perm _)).
  rewrite length_map. apply firsts_length.
Qed.

(** With [top_n] the number of rows, nothing of the ranking is cut off. *)
Lemma top_composers_all df :
  top_composers df (Z.of_nat (length df)) = value_counts (map composer_label df).
Proof.
  unfold top_composers. rewrite head_nat. apply firstn_all2.
  pose proof (value_counts_length (map composer_label df)) as H.
  now rewrite length_map in H.
Qed.

Lemma composer_label_unknown r :
  composer_label r = lit "Unknown"
  <-> TuneRow.composer r = None \/ TuneRow.composer r = Some (lit "Unknown").
Proof.
  unfold composer_label, fillna. destruct (TuneRow.composer r) as [c|].
  - split; [intros ->; now right|]. intros [H|[= ->]]; [discriminate|reflexivity].
  - split; [now left|reflexivity].
Qed.

End LabelFacts.

(** C10, as stated, fails: this block holds a composer line with nothing
    after the colon, and the composer extracted is ["Bach"], the value of
    the later composer line. *)
Lemma blank_composer_line_overwritten :
  let block := unlines [lit "X:1"; lit "C:"; lit "C:Bach"] in
  (exists line,
      In line (block_lines block) /\ has_tag TagC line = true
      /\ forallb Str.isspace (skipn 2 line) = true)
  /\ exists r,
      parse_tune_block block = Ok r
      /\ composer r = Some (lit "Bach") /\ composer r <> Some [].
Proof.
  split.
  - exists (lit "C:"). repeat split. right. now left.
  - eexists. split; [reflexivity|]. split; [reflexivity|discriminate].
Qed.

(** C10, amended.  For every block whose last composer line has only
    blanks after the colon, the composer extracted is the empty string and
    not absent; a row made of that record is counted by [top_composers]
    under the empty label and not under ["Unknown"], which stands for the
    rows whose composer is absent (or is that very word). *)
Theorem blank_last_composer_line
  (block : str) (above below : list str) (line : str) :
  block_lines block = above ++ line :: below ->
  has_tag TagC line = true ->
  forallb Str.isspace (skipn 2 line) = true ->
  filter (has_tag TagC) below = [] ->
  exists r,
    parse_tune_block block = Ok r
    /\ composer r = Some []
    /\ forall now book path (df1 df2 : DataFrame),
        let row := row_of_tune now r book path in
        let df := df1 ++ row :: df2 in
        composer_label row = []
        /\ In ([], count [] (map composer_label df))
              (top_composers df (Z.of_nat (length df)))
        /\ 0 < count [] (map composer_label df)
        /\ (forall k, In (lit "Unknown", k) (top_composers df (Z.of_nat (length df)))
                      -> k = length (filter (fun r' =>
                                 match TuneRow.composer r' with
                                 | None => true
                                 | Some c => str_eqb (lit "Unknown") c
                                 end) df)).
Proof.
  intros Hlines Htag Hblank Hbelow.
  eexists. split; [apply parse_tune_block_spec|].
  assert (last_value TagC (block_lines block) = Some []) as Hc.
  { rewrite Hlines, (last_value_from_line TagC above line below Htag).
    unfold tag_values. rewrite Hbelow. cbn [map last].
    unfold value_of. now rewrite strip_all_space. }
  split; [exact Hc|].
  intros now book path df1 df2 row df.
  assert (composer_label row = []) as Hrow.
  { unfold row, row_of_tune, composer_label. cbn [TuneRow.composer composer record_of_lines].
    now rewrite Hc. }
  assert (0 < count [] (map composer_label df)) as Hpos.
  { apply count_pos. unfold df. rewrite map_app. cbn [map].
    rewrite Hrow. apply in_or_app. right. now left. }
  split; [exact Hrow|]. split; [|split; [exact Hpos|]].
  - rewrite top_composers_all. apply value_counts_entries. now split.
  - intros k Hk. rewrite top_composers_all in Hk.
    apply value_counts_entries in Hk as [-> _].
    unfold count. clear. induction df as [|r' df' IH]; [reflexivity|].
    cbn [map filter]. unfold composer_label at 1, fillna.
    destruct (TuneRow.composer r') as [c|].
    + destruct (str_eqb (lit "Unknown") c); cbn [length]; now rewrite IH.
    + rewrite str_eqb_refl. cbn [length]. now rewrite IH.
Qed.

Lemma blank_last_composer_line_witness :
  exists r,
    parse_tune_block (unlines [lit "X:1"; lit "C:Bach"; lit "c:  "; lit "K:D"]) = Ok r
    /\ composer r = Some [].
Proof.
  destruct (blank_last_composer_line
              (unlines [lit "X:1"; lit "C:Bach"; lit "c:  "; lit "K:D"])
              [lit "X:1"; lit "C:Bach"] [lit "K:D"] (lit "c:  "))
    as (r & Hr & Hc & _); try reflexivity.
  exists r. split; [exact Hr|exact Hc].
Defined.

(** ** Book Resolver *)

Section BookFacts.

Lemma int_digits_decimal s : forall acc,
  forallb Str.isdecimal_char s = true ->
  int_digits acc s
  = Ok (fold_left (fun a c => (10 * a + Z.of_nat (nat_of_ascii c - 48))%Z) s acc).
Proof.
  induction s as [|c s IH]; intros acc H; [reflexivity|].
  cbn [forallb] in H. apply andb_prop in H as [Hc Hs].
  cbn [int_digits fold_left]. rewrite Hc. now apply IH.
Qed.

Lemma int_digits_not_decimal s : forall acc,
  forallb Str.isdecimal_char s = false -> int_digits acc s = Raise ValueError.
Proof.
  induction s as [|c s IH]; intros acc H; [discriminate|].
  cbn [forallb] in H. cbn [int_digits].
  destruct (Str.isdecimal_char c); [|reflexivity]. now apply IH.
Qed.

Lemma decimal_isdigit s :
  s <> [] -> forallb Str.isdecimal_char s = true -> Str.isdigit s = true.
Proof.
  intros Hs H. unfold Str.isdigit. destruct s as [|c s]; [contradiction|].
  rewrite forallb_forall in H |- *. intros x Hx. specialize (H x Hx).
  unfold Str.isdigit_char. unfold Str.isdecimal_char in H. now rewrite H.
Qed.

(** What the resolver returns, by the segments of the relative path. *)
Lemma book_number_by_parts cwd file_path base_dir rel :
  posixpath.relpath cwd file_path base_dir = Ok rel ->
  get_book_number_from_path cwd file_path base_dir
  = match Str.split posixpath.sep rel with
    | parent :: _ :: _ =>
        if Str.isdigit parent then
          if forallb Str.isdecimal_char parent
          then Ok (Some (decimal_value parent))
          else Raise ValueError
        else Ok None
    | _ => Ok None
    end.
Proof.
  intros Hrel. unfold get_book_number_from_path. rewrite Hrel. cbn [rbind].
  destruct (Str.split posixpath.sep rel) as [|parent [|second rest]];
    try reflexivity.
  cbn [length Nat.leb getpart nth_error rbind].
  destruct (Str.isdigit parent) eqn:Hd; [|reflexivity].
  unfold int. destruct parent as [|c parent]; [discriminate|].
  destruct (forallb Str.isdecimal_char (c :: parent)) eqn:E.
  - now rewrite (int_digits_decimal _ _ E).
  - now rewrite (int_digits_not_decimal _ _ E).
Qed.

End BookFacts.

(** C4 (the code departs from the specification).  For a file in a folder
    named ["²"] the relative path has two segments and the first does not
    consist of decimal digits, so the specification has the resolver return
    absent; the resolver raises [ValueError] instead, because
    ["²".isdigit()] holds and [int("²")] is no number. *)
Theorem superscript_folder_raises :
  let base_dir := lit "/srv/abc_books" in
  let file_path := lit "/srv/abc_books/" ++ superscript_two ++ lit "/tune200.abc" in
  forall cwd,
    posixpath.relpath cwd file_path base_dir
    = Ok (superscript_two ++ lit "/tune200.abc")
    /\ forallb Str.isdecimal_char superscript_two = false
    /\ Str.isdigit superscript_two = true
    /\ get_book_number_from_path cwd file_path base_dir = Raise ValueError
    /\ get_book_number_from_path (lit "/srv")
         (lit "abc_books/" ++ superscript_two ++ lit "/tune200.abc")
         (lit "abc_books") = Raise ValueError.
Proof. intros base_dir file_path cwd. repeat split. Qed.

Example book_resolver_examples :
  get_book_number_from_path (lit "/srv") (lit "root/2/tuneX.abc") (lit "root")
  = Ok (Some 2%Z)
  /\ get_book_number_from_path (lit "/srv") (lit "root/tuneX.abc") (lit "root")
     = Ok None
  /\ get_book_number_from_path (lit "/srv") (lit "root/abc/tuneX.abc") (lit "root")
     = Ok None
  /\ get_book_number_from_path (lit "/srv") (lit "/other/7/t.abc") (lit "root")
     = Ok None.
Proof. repeat split. Qed.

(** ** Importer *)

Section ImporterFacts.

Variable w : world.
Variable base_dir : str.

Lemma parse_blocks_ok blocks :
  parse_blocks blocks
  = Ok (map (fun block => record_of_lines (Str.strip block) (block_lines block))
            blocks).
Proof.
  induction blocks as [|b bs IH]; [reflexivity|].
  cbn [parse_blocks map]. rewrite parse_tune_block_spec, IH. reflexivity.
Qed.

(** Reading a file raises nothing. *)
Lemma parse_abc_file_ok fpath :
  parse_abc_file (read_text w) fpath = Ok (tunes_of w fpath).
Proof. unfold parse_abc_file. apply parse_blocks_ok. Qed.

Lemma write_rows_length start entries :
  length (write_rows w start entries) = length entries.
Proof.
  revert start. induction entries as [|[[t b] f] es IH]; intro start;
    [reflexivity|]. cbn. now rewrite IH.
Qed.

Lemma write_rows_app start es1 es2 :
  write_rows w start (es1 ++ es2)
  = write_rows w start es1 ++ write_rows w (start + length es1) es2.
Proof.
  revert start. induction es1 as [|[[t b] f] es1 IH]; intro start.
  - cbn. now rewrite Nat.add_0_r.
  - cbn. rewrite IH. do 3 f_equal. lia.
Qed.

Lemma insert_tunes_run tunes book fpath : forall total db,
  insert_tunes w tunes book fpath total db
  = (Ok (total + length tunes),
     db ++ write_rows w (length db) (map (fun t => (t, book, fpath)) tunes)).
Proof.
  induction tunes as [|t ts IH]; intros total db.
  - cbn. now rewrite Nat.add_0_r, app_nil_r.
  - cbn [insert_tunes]. unfold io_bind, insert_tune. rewrite IH.
    rewrite length_app. cbn [length map write_rows].
    rewrite <- app_assoc. cbn [app].
    replace (length db + 1) with (S (length db)) by lia.
    replace (S total + length ts) with (total + S (length ts)) by lia.
    reflexivity.
Qed.

(** A run over files whose book resolves writes one row per record, in the
    order of the files, and returns the count raised by their number. *)
Lemma import_files_run files : forall total db,
  Forall (resolves w base_dir) files ->
  import_files w files base_dir total db
  = (Ok (total + length (entries_of w base_dir files)),
     db ++ write_rows w (length db) (entries_of w base_dir files)).
Proof.
  induction files as [|f fs IH]; intros total db H.
  - cbn. now rewrite Nat.add_0_r, app_nil_r.
  - inversion H as [|? ? [book Hf] Hfs]; subst.
    cbn [import_files]. unfold io_bind at 1, io_lift at 1. rewrite Hf.
    unfold io_bind at 1, io_lift at 1. rewrite parse_abc_file_ok.
    unfold io_bind at 1. rewrite insert_tunes_run, (IH _ _ Hfs).
    cbn [entries_of flat_map]. fold (entries_of w base_dir fs).
    assert (book_of w base_dir f = book) as ->
      by (unfold book_of; now rewrite Hf).
    rewrite !length_app, write_rows_app, write_rows_length.
    rewrite !length_map, <- app_assoc, Nat.add_assoc. reflexivity.
Qed.

(** A file whose book does not resolve ends the run: the rows of the files
    before it stay, and no count is returned. *)
Lemma import_files_raise good bad rest e : forall total db,
  Forall (resolves w base_dir) good ->
  get_book_number_from_path (getcwd w) bad base_dir = Raise e ->
  import_files w (good ++ bad :: rest) base_dir total db
  = (Raise e, db ++ write_rows w (length db) (entries_of w base_dir good)).
Proof.
  induction good as [|f fs IH]; intros total db H Hbad.
  - cbn [app import_files]. unfold io_bind, io_lift. rewrite Hbad.
    cbn. now rewrite app_nil_r.
  - inversion H as [|? ? [book Hf] Hfs]; subst.
    cbn [app import_files]. unfold io_bind at 1, io_lift at 1. rewrite Hf.
    unfold io_bind at 1, io_lift at 1. rewrite parse_abc_file_ok.
    unfold io_bind at 1. rewrite insert_tunes_run, (IH _ _ Hfs Hbad).
    cbn [entries_of flat_map]. fold (entries_of w base_dir fs).
    assert (book_of w base_dir f = book) as ->
      by (unfold book_of; now rewrite Hf).
    rewrite length_app, write_rows_app, write_rows_length.
    rewrite !length_map, <- app_assoc. reflexivity.
Qed.

End ImporterFacts.

Section SortedFacts.

Lemma str_ltb_asym a : forall b, str_ltb a b = true -> str_ltb b a = false.
Proof.
  induction a as [|x a IH]; intros [|y b] H; try reflexivity; try discriminate.
  cbn [str_ltb] in H |- *.
  destruct (Nat.ltb_spec (nat_of_ascii x) (nat_of_ascii y)) as [Hxy|Hxy].
  - destruct (Nat.ltb_spec (nat_of_ascii y) (nat_of_ascii x)); [lia|].
    destruct (Ascii.eqb_spec y x) as [->|]; [lia|reflexivity].
  - cbn [orb] in H. apply andb_prop in H as [Hx Hab].
    apply Ascii.eqb_eq in Hx. subst y.
    rewrite Nat.ltb_irrefl, Ascii.eqb_refl. cbn. now apply IH.
Qed.

Lemma insert_sorted_perm x l : Permutation (insert_sorted x l) (x :: l).
Proof.
  induction l as [|h t IH]; [reflexivity|]. cbn [insert_sorted].
  destruct (str_ltb x h); [reflexivity|]. rewrite IH. apply perm_swap.
Qed.

Lemma sorted_perm l : Permutation (sorted l) l.
Proof.
  induction l as [|x l IH]; [reflexivity|]. cbn [sorted fold_right].
  fold (sorted l). rewrite insert_sorted_perm. now constructor.
Qed.

Lemma insert_sorted_ordered x l :
  Sorted str_le l -> Sorted str_le (insert_sorted x l).
Proof.
  induction 1 as [|h t Ht IH Hh]; cbn [insert_sorted].
  - repeat constructor.
  - destruct (str_ltb x h) eqn:E.
    + constructor; [now constructor|]. constructor.
      unfold str_le. now apply str_ltb_asym.
    + constructor; [exact IH|].
      destruct t as [|h' t]; cbn [insert_sorted].
      * constructor. exact E.
      * destruct (str_ltb x h'); constructor; [exact E|].
        now inversion Hh.
Qed.

(** [sorted] returns its argument in ascending order. *)
Lemma sorted_ordered l : Sorted str_le (sorted l).
Proof.
  induction l as [|x l IH]; [constructor|]. cbn [sorted fold_right].
  fold (sorted l). now apply insert_sorted_ordered.
Qed.

End SortedFacts.

Section ExtensionFacts.

Lemma lower_char_abc c :
  Ascii.eqb "a" (Str.lower_char c) = either c "A" "a"
  /\ Ascii.eqb "b" (Str.lower_char c) = either c "B" "b"
  /\ Ascii.eqb "c" (Str.lower_char c) = either c "C" "c"
  /\ Ascii.eqb "." (Str.lower_char c) = Ascii.eqb c ".".
Proof. destruct c as [[] [] [] [] [] [] [] []]; repeat split. Qed.

Lemma either_cases c u l : either c u l = true <-> c = l \/ c = u.
Proof.
  unfold either. rewrite orb_true_iff, !Ascii.eqb_eq. tauto.
Qed.

(** A name is taken for an ABC file exactly when it ends with a dot and the
    letters a, b, c, each in either case. *)
Lemma is_abc_extension f :
  is_abc f = true
  <-> exists stem a b c,
        f = stem ++ ["."; a; b; c]
        /\ (a = "a" \/ a = "A") /\ (b = "b" \/ b = "B") /\ (c = "c" \/ c = "C").
Proof.
  unfold is_abc, Str.endswith, Str.lower. rewrite <- map_rev.
  split.
  - intros H. destruct (rev f) as [|c [|b [|a [|d stem]]]] eqn:E;
      try (cbn in H; rewrite ?andb_false_r in H; discriminate H).
    change (Ascii.eqb "c" (Str.lower_char c)
            && (Ascii.eqb "b" (Str.lower_char b)
                && (Ascii.eqb "a" (Str.lower_char a)
                    && (Ascii.eqb "." (Str.lower_char d) && true))) = true) in H.
    rewrite (proj1 (proj2 (proj2 (lower_char_abc c)))) in H.
    rewrite (proj1 (proj2 (lower_char_abc b))) in H.
    rewrite (proj1 (lower_char_abc a)) in H.
    rewrite (proj2 (proj2 (proj2 (lower_char_abc d)))) in H.
    apply andb_prop in H as [Hc H]. apply andb_prop in H as [Hb H].
    apply andb_prop in H as [Ha H]. apply andb_prop in H as [Hd _].
    apply Ascii.eqb_eq in Hd. subst d.
    apply either_cases in Ha, Hb, Hc.
    exists (rev stem), a, b, c. split; [|now repeat split].
    rewrite <- (rev_involutive f), E. cbn [rev]. rewrite <- !app_assoc.
    reflexivity.
  - intros (stem & a & b & c & -> & Ha & Hb & Hc).
    rewrite rev_app_distr. cbn [rev app map].
    destruct Ha as [->| ->], Hb as [->| ->], Hc as [->| ->]; reflexivity.
Qed.

End ExtensionFacts.

Section ImportRun.

Variable w : world.
Variable base_dir : str.

Lemma find_abc_files_sorted :
  Permutation (find_abc_files w base_dir) (abc_paths w base_dir)
  /\ Sorted str_le (find_abc_files w base_dir).
Proof.
  unfold find_abc_files. fold (abc_paths w base_dir).
  split; [apply sorted_perm|apply sorted_ordered].
Qed.

(** When the book of every file resolves, the run returns the number of
    rows it has appended: one per record of each file, file by file in
    sorted order, all rows of a file with the book of that file. *)
Lemma import_abc_books_run db :
  Forall (resolves w base_dir) (find_abc_files w base_dir) ->
  let entries := entries_of w base_dir (find_abc_files w base_dir) in
  let rows := write_rows w (length db) entries in
  import_abc_books w base_dir db = (Ok (length rows), db ++ rows)
  /\ length rows = length entries.
Proof.
  intros H entries rows. unfold import_abc_books.
  rewrite (import_files_run w base_dir _ 0 db H).
  unfold rows, entries. rewrite write_rows_length. now split.
Qed.

End ImportRun.

(** C8 (the code departs from the specification).  On the corpus
    [two_books] the files found are the two [.abc] files in sorted order; the
    tune of the first is appended with book 1, then the resolver raises on
    the folder ["²"] and the run ends without returning a count. *)
Theorem import_stops_at_superscript_folder :
  find_abc_files two_books_world (lit "abc_books")
  = [lit "abc_books/1/reels.ABC";
     lit "abc_books/" ++ superscript_two ++ lit "/jigs.abc"]
  /\ exists row,
      import_abc_books two_books_world (lit "abc_books") []
      = (Raise ValueError, [row])
      /\ TuneRow.book row = Some 1%Z
      /\ TuneRow.file_path row = lit "abc_books/1/reels.ABC".
Proof.
  split; [reflexivity|]. eexists. split; [reflexivity|]. split; reflexivity.
Qed.

(** ** Worked examples *)

Example two_tunes_records :
  exists first second,
    parse_abc_file (fun _ => two_tunes) (lit "reels.abc") = Ok [first; second]
    /\ titles first = [lit "The Butterfly"; an_fheileacan]
    /\ title first = Some (lit "The Butterfly / " ++ an_fheileacan)
    /\ rhythm first = Some (lit "slip jig")
    /\ key first = Some (lit "Edor")
    /\ title second = Some (lit "Cooley's")
    /\ rhythm second = Some (lit "reel")
    /\ key second = None.
Proof. do 2 eexists. split; [reflexivity|]. repeat split. Qed.

Example top_two_composers :
  value_counts [lit "A"; lit "B"; lit "A"; lit "Unknown"; lit "C"; lit "B"; lit "A"]
  = [(lit "A", 3); (lit "B", 2); (lit "Unknown", 1); (lit "C", 1)]
  /\ head 2 (value_counts [lit "A"; lit "B"; lit "A"; lit "Unknown"; lit "C";
                           lit "B"; lit "A"])
     = [(lit "A", 3); (lit "B", 2)].
Proof. split; reflexivity. Qed.

(** * Further properties *)

(** ** Segmenter *)

Section SegmenterMore.
Import Str TUNE_BLOCK_REGEX.

Lemma findall_text content :
  findall content = map unlines (blocks_of_lines (text_lines content)).
Proof.
  rewrite <- (join_split LF content) at 1.
  apply findall_unlines. apply split_sep_free.
Qed.

Lemma concat_blocks ls : concat (blocks_of_lines ls) = from_marker ls.
Proof.
  induction ls as [|l r IH]; [reflexivity|]. cbn [blocks_of_lines from_marker].
  destruct (is_marker l); [|exact IH].
  cbn [concat app]. now rewrite IH, until_from_marker.
Qed.

Lemma blocks_nonempty ls : Forall (fun g => g <> []) (blocks_of_lines ls).
Proof.
  induction ls as [|l r IH]; [constructor|]. cbn [blocks_of_lines].
  destruct (is_marker l); [|exact IH]. constructor; [discriminate|exact IH].
Qed.

Lemma join_unlines groups :
  Forall (fun g => g <> []) groups ->
  join [LF] (map unlines groups) = unlines (concat groups).
Proof.
  induction 1 as [|g gs Hg Hgs IH]; [reflexivity|].
  destruct g as [|a g]; [contradiction|]. cbn [map concat].
  destruct gs as [|g' gs].
  - cbn [map concat join]. now rewrite app_nil_r.
  - change (join [LF] (unlines (a :: g) :: map unlines (g' :: gs)))
      with (unlines (a :: g) ++ [LF] ++ join [LF] (map unlines (g' :: gs))).
    rewrite IH. inversion Hgs as [|? ? Hg' _]; subst.
    destruct g' as [|b g']; [contradiction|].
    change ((a :: g) ++ concat ((b :: g') :: gs))
      with (a :: g ++ (b :: g' ++ concat gs)).
    rewrite (unlines_cons a (g ++ _)), lf_cat_app, lf_cat_cons, unlines_cons.
    cbn [concat app]. now rewrite <- app_assoc.
Qed.

Lemma until_marker_no_marker ls :
  forallb (fun l => negb (is_marker l)) (until_marker ls) = true.
Proof.
  induction ls as [|l r IH]; [reflexivity|]. cbn [until_marker].
  destruct (is_marker l) eqn:E; [reflexivity|]. cbn [forallb].
  now rewrite E, IH.
Qed.

Lemma until_marker_lf_free ls : Forall lf_free ls -> Forall lf_free (until_marker ls).
Proof.
  induction 1 as [|l r Hl Hr IH]; [constructor|]. cbn [until_marker].
  destruct (is_marker l); [constructor|now constructor].
Qed.

Lemma blocks_none a :
  forallb (fun l => negb (is_marker l)) a = true -> blocks_of_lines a = [].
Proof.
  intros H. rewrite <- (app_nil_r a). now rewrite (blocks_plain a [] H).
Qed.

Lemma until_marker_all a :
  forallb (fun l => negb (is_marker l)) a = true -> until_marker a = a.
Proof.
  intros H. rewrite <- (app_nil_r a) at 1.
  rewrite (until_marker_plain a [] H). cbn. now rewrite app_nil_r.
Qed.

(** Each group is a marker line followed by lines that are no markers. *)
Lemma blocks_shape ls :
  Forall lf_free ls ->
  Forall (fun g => exists l rest,
              g = l :: rest /\ is_marker l = true
              /\ forallb (fun x => negb (is_marker x)) rest = true
              /\ Forall lf_free g)
         (blocks_of_lines ls).
Proof.
  induction 1 as [|l r Hl Hr IH]; [constructor|]. cbn [blocks_of_lines].
  destruct (is_marker l) eqn:E; [|exact IH]. constructor; [|exact IH].
  exists l, (until_marker r). repeat split.
  - exact E.
  - apply until_marker_no_marker.
  - constructor; [exact Hl|now apply until_marker_lf_free].
Qed.

End SegmenterMore.

(** X1.  Nothing but the text before the first marker line is lost: every
    text is a preamble, in which [findall] finds no block, followed by the
    blocks joined with line feeds; a text that begins with ["X:"] is the
    join of its blocks. *)
Theorem blocks_rebuild_text (content : str) :
  (exists preamble,
      content = preamble ++ Str.join [Str.LF] (TUNE_BLOCK_REGEX.findall content)
      /\ TUNE_BLOCK_REGEX.findall preamble = [])
  /\ (Str.startswith (lit "X:") content = true ->
      Str.join [Str.LF] (TUNE_BLOCK_REGEX.findall content) = content).
Proof.
  pose proof (split_sep_free Str.LF content) as Hfree.
  pose proof (join_split Str.LF content) as Htext.
  fold (text_lines content) in Hfree, Htext. fold (unlines (text_lines content)) in Htext.
  assert (Str.join [Str.LF] (TUNE_BLOCK_REGEX.findall content)
          = unlines (from_marker (text_lines content))) as Hjoin.
  { rewrite findall_text, join_unlines by apply blocks_nonempty.
    now rewrite concat_blocks. }
  rewrite Hjoin. split.
  - pose proof (until_from_marker (text_lines content)) as Hsplit.
    pose proof (until_marker_no_marker (text_lines content)) as Hplain.
    pose proof (until_marker_lf_free _ Hfree) as Hpfree.
    destruct (from_marker (text_lines content)) as [|m rest] eqn:Em.
    + exists content. split; [cbn; now rewrite app_nil_r|].
      rewrite findall_text, <- blocks_from_marker, Em. reflexivity.
    + destruct (until_marker (text_lines content)) as [|p ps] eqn:Ep.
      * exists []. split; [|reflexivity]. cbn [app] in Hsplit |- *.
        now rewrite Hsplit.
      * exists (unlines ((p :: ps) ++ [[]])). split.
        -- rewrite <- Htext at 1. rewrite <- Hsplit.
           cbn [app]. rewrite !unlines_cons, !lf_cat_app.
           cbn [lf_cat flat_map app]. rewrite <- !app_assoc. reflexivity.
        -- rewrite findall_unlines.
           ++ rewrite blocks_none; [reflexivity|].
              rewrite forallb_app, Hplain. reflexivity.
           ++ apply Forall_app. split; [exact Hpfree|].
              constructor; [intros []|constructor].
  - intros Hx. rewrite <- Htext at 2. f_equal.
    unfold text_lines in *. destruct (Str.split Str.LF content) as [|l r] eqn:E.
    + reflexivity.
    + cbn [from_marker]. assert (is_marker l = true) as ->; [|reflexivity].
      rewrite <- Htext in Hx. destruct r as [|m r].
      * exact Hx.
      * rewrite unlines_cons, lf_cat_cons, marker_in_text in Hx. exact Hx.
Qed.

(** X2.  Every block begins with ["X:"] and is a whole record: segmenting a
    block again gives that block and nothing else. *)
Theorem blocks_are_whole_records (content : str) :
  Forall (fun block =>
            Str.startswith (lit "X:") block = true
            /\ TUNE_BLOCK_REGEX.findall block = [block])
         (TUNE_BLOCK_REGEX.findall content).
Proof.
  rewrite findall_text. apply Forall_map.
  pose proof (blocks_shape (text_lines content) (split_sep_free _ _)) as H.
  eapply Forall_impl; [|exact H].
  intros g (l & rest & -> & Hm & Hrest & Hfree). split.
  - destruct rest as [|m rest]; [exact Hm|].
    rewrite unlines_cons, lf_cat_cons, marker_in_text. exact Hm.
  - rewrite (findall_unlines _ Hfree). cbn [blocks_of_lines]. rewrite Hm.
    now rewrite (until_marker_all _ Hrest), (blocks_none _ Hrest).
Qed.

(** ** Field Extractor *)

Section ExtractorMore.
Import Str.

Lemma dropwhile_idem p s : dropwhile p (dropwhile p s) = dropwhile p s.
Proof.
  induction s as [|c s IH]; [reflexivity|]. cbn [dropwhile].
  destruct (p c) eqn:E; [exact IH|]. cbn [dropwhile]. now rewrite E.
Qed.

Lemma rstrip_idem s : rstrip (rstrip s) = rstrip s.
Proof. unfold rstrip. now rewrite rev_involutive, dropwhile_idem. Qed.

Lemma dropwhile_head p s :
  dropwhile p s = [] \/ exists c r, dropwhile p s = c :: r /\ p c = false.
Proof.
  induction s as [|c s IH]; [now left|]. cbn [dropwhile].
  destruct (p c) eqn:E; [exact IH|]. right. now exists c, s.
Qed.

Lemma rstrip_cons c s : isspace c = false -> rstrip (c :: s) = c :: rstrip s.
Proof. intros H. apply (rstrip_app_stop [] c s H). Qed.

(** Trimming twice is trimming once. *)
Lemma strip_idem s : strip (strip s) = strip s.
Proof.
  unfold strip. destruct (dropwhile_head isspace s) as [E|(c & r & E & Hc)];
    unfold lstrip; rewrite E.
  - reflexivity.
  - rewrite (rstrip_cons c r Hc). cbn [dropwhile]. rewrite Hc.
    rewrite (rstrip_cons c _ Hc). now rewrite rstrip_idem.
Qed.

Lemma strip_two c0 c1 w :
  isspace c0 = false -> isspace c1 = false ->
  strip (c0 :: c1 :: w) = c0 :: c1 :: rstrip w.
Proof.
  intros H0 H1. unfold strip, lstrip. cbn [dropwhile]. rewrite H0.
  now rewrite (rstrip_cons c0 _ H0), (rstrip_cons c1 _ H1).
Qed.

Lemma last_some_in {A} (vs : list A) v :
  last (map Some vs) None = Some v -> In v vs.
Proof.
  destruct vs as [|u us]; [discriminate|]. rewrite last_some.
  intros [= <-]. destruct us as [|u' us]; [now left|].
  right. change (In (last (u' :: us) u) (u' :: us)).
  rewrite (last_default u' us u u').
  assert (u' :: us <> []) as Hne by discriminate.
  destruct (exists_last Hne) as (front & z & E). rewrite E.
  rewrite last_last. apply in_or_app. right. now left.
Qed.

Lemma tag_value_trimmed t ls v : In v (tag_values t ls) -> strip v = v.
Proof.
  unfold tag_values. intros H. apply in_map_iff in H as (l & <- & _).
  apply strip_idem.
Qed.

(** A block that begins with ["X:"] has a first line with the tag X. *)
Lemma marker_block_lines block :
  is_marker block = true ->
  strip block = lit "X:" ++ rstrip (skipn 2 block)
  /\ exists first rest,
      block_lines block = first :: rest /\ has_tag TagX first = true.
Proof.
  intros Hm. pose proof (marker_shape block Hm) as E.
  remember (skipn 2 block) as w eqn:Ew. clear Ew Hm. subst block.
  change (lit "X:" ++ w) with ("X" :: ":" :: w).
  unfold block_lines.
  rewrite (strip_two "X" ":" _ eq_refl eq_refl). split; [reflexivity|].
  rewrite (splitlines_two "X" ":" _ eq_refl eq_refl).
  do 2 eexists. split; reflexivity.
Qed.

(** The record of every block found has a number, and its text begins with
    the marker. *)
Lemma records_numbered content :
  Forall (fun t => x_number t <> None
                   /\ Str.startswith (lit "X:") (tune_text t) = true)
         (map (fun block => record_of_lines (Str.strip block) (block_lines block))
              (TUNE_BLOCK_REGEX.findall content)).
Proof.
  apply Forall_map.
  pose proof (blocks_shape _ (split_sep_free Str.LF content)) as H.
  rewrite findall_text. apply Forall_map.
  eapply Forall_impl; [|exact H].
  intros g (l & rest & -> & Hm & _ & _).
  assert (is_marker (unlines (l :: rest)) = true) as Hb.
  { unfold is_marker. destruct rest as [|m rest]; [exact Hm|].
    rewrite unlines_cons, lf_cat_cons, marker_in_text. exact Hm. }
  destruct (marker_block_lines _ Hb) as (Hs & first & others & Hl & Ht).
  cbn [x_number tune_text record_of_lines]. split.
  - rewrite Hl. change (first :: others) with ([] ++ first :: others).
    rewrite (last_value_from_line TagX [] first others Ht). discriminate.
  - rewrite Hs. reflexivity.
Qed.

End ExtractorMore.


(** X4.  The stored text of a record is trimmed, and parsing it again gives
    the record back. *)
Theorem reparse_tune_text (block : str) :
  exists r,
    parse_tune_block block = Ok r
    /\ Str.strip (tune_text r) = tune_text r
    /\ parse_tune_block (tune_text r) = Ok r.
Proof.
  eexists. split; [apply parse_tune_block_spec|].
  cbn [tune_text record_of_lines]. split; [apply strip_idem|].
  rewrite parse_tune_block_spec. unfold block_lines.
  now rewrite strip_idem.
Qed.


(** ** Book Resolver *)

Section PathMore.
Import Str.

Lemma split_app_sep s a b : split s (a ++ s :: b) = split s a ++ split s b.
Proof.
  induction a as [|c a IH]; cbn [app split].
  - now rewrite Ascii.eqb_refl.
  - rewrite IH. destruct (Ascii.eqb c s); [reflexivity|].
    pose proof (split_nonempty s a) as Hne.
    destruct (split s a) as [|l ls]; [contradiction|reflexivity].
Qed.

Lemma split_plain s c : ~ In s c -> split s c = [c].
Proof.
  induction c as [|x c IH]; intros H; [reflexivity|]. cbn [split].
  destruct (Ascii.eqb_spec x s) as [->|_]; [exfalso; apply H; now left|].
  rewrite IH; [reflexivity|]. intros Hin. apply H. now right.
Qed.

Lemma components_nil : components [] = [].
Proof. reflexivity. Qed.

Lemma components_app_sep a b :
  components (a ++ posixpath.sep :: b) = components a ++ components b.
Proof. unfold components. now rewrite split_app_sep, filter_app. Qed.

Lemma plain_name_facts c :
  plain_name c = true ->
  c <> [] /\ ~ In posixpath.sep c
  /\ str_eqb c [] = false /\ str_eqb c (lit ".") = false
  /\ str_eqb c (lit "..") = false.
Proof.
  unfold plain_name. intros H.
  apply andb_prop in H as [H Hdd]. apply andb_prop in H as [H Hd].
  apply andb_prop in H as [Hne Hsep].
  apply negb_true_iff in Hdd, Hd, Hsep.
  assert (c <> []) as Hc by (destruct c; [discriminate|discriminate]).
  repeat split; try assumption.
  - intros Hin. assert (existsb (Ascii.eqb posixpath.sep) c = true) as E.
    { apply existsb_exists. exists posixpath.sep. split; [exact Hin|apply Ascii.eqb_refl]. }
    congruence.
  - apply str_eqb_neq. exact Hc.
Qed.

Lemma components_plain c : plain_name c = true -> components c = [c].
Proof.
  intros H. destruct (plain_name_facts c H) as (Hne & Hsep & _).
  unfold components. rewrite (split_plain _ _ Hsep). cbn.
  destruct c; [contradiction|reflexivity].
Qed.

Lemma startswith_sep_cons x c :
  startswith [posixpath.sep] (x :: c) = Ascii.eqb posixpath.sep x.
Proof. apply andb_true_r. Qed.

Lemma plain_not_abs c : plain_name c = true -> startswith [posixpath.sep] c = false.
Proof.
  intros H. destruct (plain_name_facts c H) as (Hne & Hsep & _).
  destruct c as [|x c]; [contradiction|]. rewrite startswith_sep_cons.
  destruct (Ascii.eqb_spec posixpath.sep x) as [E|_]; [|reflexivity].
  exfalso. apply Hsep. now left.
Qed.

Lemma endswith_sep_inv path :
  match path with
  | [] => endswith [posixpath.sep] path = false
  | _ :: _ =>
      exists front c, path = front ++ [c]
        /\ endswith [posixpath.sep] path = Ascii.eqb posixpath.sep c
  end.
Proof.
  destruct path as [|x path]; [reflexivity|].
  assert (x :: path <> []) as Hne by discriminate.
  destruct (exists_last Hne) as (front & c & E). exists front, c.
  split; [exact E|]. rewrite E. unfold endswith.
  rewrite rev_app_distr. cbn [rev app]. apply startswith_sep_cons.
Qed.

Lemma join_step_cases path b :
  startswith [posixpath.sep] b = false ->
  (posixpath.join_step path b = b /\ path = [])
  \/ (exists front, path = front ++ [posixpath.sep]
                    /\ posixpath.join_step path b = front ++ posixpath.sep :: b)
  \/ (exists front c, path = front ++ [c] /\ c <> posixpath.sep
                      /\ posixpath.join_step path b = path ++ posixpath.sep :: b).
Proof.
  intros Hb. unfold posixpath.join_step. rewrite Hb.
  pose proof (endswith_sep_inv path) as H.
  destruct path as [|x path]; [now left|]. right.
  destruct H as (front & c & E & Hend). rewrite Hend.
  destruct (Ascii.eqb_spec posixpath.sep c) as [<-|Hc].
  - left. exists front. split; [exact E|]. rewrite E, <- app_assoc. reflexivity.
  - right. exists front, c. repeat split; [exact E|congruence].
Qed.

Lemma components_join_step path b :
  startswith [posixpath.sep] b = false ->
  components (posixpath.join_step path b) = components path ++ components b.
Proof.
  intros Hb.
  destruct (join_step_cases path b Hb)
    as [[-> ->]|[(front & -> & ->)|(front & c & E & Hc & ->)]].
  - reflexivity.
  - rewrite !components_app_sep, components_nil, app_nil_r. reflexivity.
  - apply components_app_sep.
Qed.

Lemma isabs_join_step path b :
  startswith [posixpath.sep] b = false ->
  posixpath.isabs (posixpath.join_step path b) = posixpath.isabs path.
Proof.
  intros Hb.
  destruct (join_step_cases path b Hb)
    as [[-> ->]|[(front & -> & ->)|(front & c & E & Hc & ->)]].
  - exact Hb.
  - destruct front; reflexivity.
  - destruct path; [now destruct front|reflexivity].
Qed.

Lemma leading_app_inside path c tail :
  In c path -> c <> posixpath.sep ->
  leading_seps (path ++ tail) = leading_seps path.
Proof.
  induction path as [|x path IH]; intros Hin Hc; [destruct Hin|].
  cbn [app leading_seps]. destruct (Ascii.eqb_spec x posixpath.sep) as [->|_];
    [|reflexivity].
  f_equal. apply IH; [|exact Hc]. destruct Hin as [E|Hin]; [congruence|exact Hin].
Qed.

Lemma leading_app_stop path tail :
  startswith [posixpath.sep] tail = false ->
  leading_seps (path ++ tail) = leading_seps path.
Proof.
  intros Ht. induction path as [|x path IH].
  - destruct tail as [|y tail]; [reflexivity|].
    rewrite startswith_sep_cons in Ht. cbn [app leading_seps].
    now rewrite Ascii.eqb_sym, Ht.
  - cbn [app leading_seps]. now rewrite IH.
Qed.

Lemma leading_join_step path b :
  path <> [] -> startswith [posixpath.sep] b = false ->
  leading_seps (posixpath.join_step path b) = leading_seps path.
Proof.
  intros Hp Hb.
  destruct (join_step_cases path b Hb)
    as [[_ ->]|[(front & -> & ->)|(front & c & E & Hc & ->)]].
  - contradiction.
  - change (front ++ posixpath.sep :: b) with (front ++ [posixpath.sep] ++ b).
    rewrite app_assoc. now apply leading_app_stop.
  - apply (leading_app_inside path c); [|exact Hc].
    rewrite E. apply in_or_app. right. now left.
Qed.

Lemma join_step_nonempty path b :
  path <> [] -> posixpath.join_step path b <> [].
Proof.
  intros Hp. unfold posixpath.join_step.
  destruct (startswith [posixpath.sep] b) eqn:Hb.
  - destruct b; [discriminate|discriminate].
  - destruct path as [|x path]; [contradiction|].
    destruct (endswith [posixpath.sep] (x :: path)); discriminate.
Qed.

(** A path joined with plain names: what is known of the result. *)
Lemma join_plain names : forall base,
  Forall (fun c => plain_name c = true) names ->
  posixpath.isabs (posixpath.join base names) = posixpath.isabs base
  /\ components (posixpath.join base names) = components base ++ names
  /\ (base <> [] ->
      leading_seps (posixpath.join base names) = leading_seps base
      /\ posixpath.join base names <> []).
Proof.
  induction names as [|n names IH]; intros base H.
  - cbn. rewrite app_nil_r. repeat split. assumption.
  - inversion H as [|? ? Hn Hns]; subst.
    pose proof (plain_not_abs n Hn) as Hrel.
    change (posixpath.join base (n :: names))
      with (posixpath.join (posixpath.join_step base n) names).
    destruct (IH (posixpath.join_step base n) Hns) as (Ha & Hc & Hl).
    rewrite Ha, Hc, (isabs_join_step _ _ Hrel), (components_join_step _ _ Hrel).
    rewrite (components_plain n Hn), <- app_assoc. repeat split.
    + destruct (Hl (join_step_nonempty base n H0)) as [-> _].
      now apply leading_join_step.
    + now destruct (Hl (join_step_nonempty base n H0)).
Qed.

End PathMore.

Section NormpathMore.
Import Str.

Lemma components_pieces p : Forall piece (components p).
Proof.
  unfold components. pose proof (split_sep_free posixpath.sep p) as H.
  induction H as [|c cs Hc Hcs IH]; [constructor|]. cbn [filter].
  destruct c as [|x c]; [exact IH|]. constructor; [|exact IH].
  split; [discriminate|exact Hc].
Qed.

Lemma norm_step_empty k acc : posixpath.norm_step k acc [] = acc.
Proof. reflexivity. Qed.

Lemma fold_norm_components k l : forall acc,
  fold_left (posixpath.norm_step k) l acc
  = fold_left (posixpath.norm_step k) (filter posixpath.nonempty l) acc.
Proof.
  induction l as [|c l IH]; intro acc; [reflexivity|]. cbn [filter fold_left].
  destruct c as [|x c]; [now rewrite norm_step_empty|].
  cbn [posixpath.nonempty fold_left]. apply IH.
Qed.

Lemma Forall_removelast {A} (P : A -> Prop) l :
  Forall P l -> Forall P (removelast l).
Proof.
  induction 1 as [|x l Hx Hl IH]; [constructor|]. cbn [removelast].
  destruct l; [constructor|now constructor].
Qed.

Lemma norm_step_pieces k acc c :
  Forall piece acc -> piece c -> Forall piece (posixpath.norm_step k acc c).
Proof.
  intros Hacc Hc. unfold posixpath.norm_step.
  destruct (str_eqb c [] || str_eqb c (lit ".")); [exact Hacc|].
  match goal with |- Forall _ (if ?b then _ else _) => destruct b end.
  - apply Forall_app. split; [exact Hacc|now constructor].
  - destruct acc; [exact Hacc|now apply Forall_removelast].
Qed.

Lemma fold_norm_pieces k l : forall acc,
  Forall piece acc -> Forall piece l ->
  Forall piece (fold_left (posixpath.norm_step k) l acc).
Proof.
  induction l as [|c l IH]; intros acc Hacc Hl; [exact Hacc|].
  inversion Hl; subst. cbn [fold_left]. apply IH; [|assumption].
  now apply norm_step_pieces.
Qed.

Lemma fold_norm_plain k names : forall acc,
  Forall (fun c => plain_name c = true) names ->
  fold_left (posixpath.norm_step k) names acc = acc ++ names.
Proof.
  induction names as [|n names IH]; intros acc H.
  - now rewrite app_nil_r.
  - inversion H as [|? ? Hn Hns]; subst. cbn [fold_left].
    destruct (plain_name_facts n Hn) as (_ & _ & E0 & E1 & E2).
    assert (posixpath.norm_step k acc n = acc ++ [n]) as ->.
    { unfold posixpath.norm_step. now rewrite E0, E1, E2. }
    rewrite (IH _ Hns), <- app_assoc. reflexivity.
Qed.

Lemma components_sep p : components (posixpath.sep :: p) = components p.
Proof. unfold components. cbn [split]. now rewrite Ascii.eqb_refl. Qed.

Lemma components_repeat k p : components (repeat posixpath.sep k ++ p) = components p.
Proof.
  induction k as [|k IH]; [reflexivity|]. cbn [repeat app].
  now rewrite components_sep.
Qed.

Lemma components_piece c : piece c -> components c = [c].
Proof.
  intros [Hne Hsep]. unfold components. rewrite (split_plain _ _ Hsep).
  destruct c; [contradiction|reflexivity].
Qed.

(** Joining pieces with the separator and splitting again is the identity. *)
Lemma components_join cs :
  Forall piece cs -> components (join [posixpath.sep] cs) = cs.
Proof.
  induction 1 as [|c cs Hc Hcs IH]; [reflexivity|].
  destruct cs as [|d cs].
  - cbn [join]. now apply components_piece.
  - change (join [posixpath.sep] (c :: d :: cs))
      with (c ++ posixpath.sep :: join [posixpath.sep] (d :: cs)).
    rewrite components_app_sep, IH, (components_piece c Hc). reflexivity.
Qed.

Lemma isabs_leading p : posixpath.isabs p = true -> 0 < leading_seps p.
Proof.
  unfold posixpath.isabs. destruct p as [|x p]; [discriminate|].
  rewrite startswith_sep_cons. cbn [leading_seps].
  rewrite Ascii.eqb_sym. intros ->. lia.
Qed.

(** [normpath] on an absolute path. *)
Lemma normpath_abs p :
  posixpath.isabs p = true ->
  let k := initial_slashes (leading_seps p) in
  posixpath.normpath p
  = repeat posixpath.sep k
    ++ join [posixpath.sep]
         (fold_left (posixpath.norm_step k) (split posixpath.sep p) [])
  /\ 0 < k.
Proof.
  intros Habs k.
  assert ((if startswith (lit "/") p then
             if startswith (lit "//") p && negb (startswith (lit "///") p)
             then 2 else 1
           else 0) = k) as Hk.
  { unfold k. clear k. unfold posixpath.isabs in Habs.
    destruct p as [|a [|b [|c p]]]; try discriminate Habs;
      rewrite startswith_sep_cons in Habs;
      apply Ascii.eqb_eq in Habs; subst a.
    - reflexivity.
    - cbn [leading_seps]. rewrite Ascii.eqb_refl.
      change (startswith (lit "/") [posixpath.sep; b]) with true.
      change (startswith (lit "//") [posixpath.sep; b])
        with (Ascii.eqb "/" b && true).
      change (startswith (lit "///") [posixpath.sep; b])
        with (Ascii.eqb "/" b && false).
      rewrite (Ascii.eqb_sym b). unfold posixpath.sep.
      destruct (Ascii.eqb "/" b); reflexivity.
    - cbn [leading_seps]. rewrite Ascii.eqb_refl.
      change (startswith (lit "/") (posixpath.sep :: b :: c :: p)) with true.
      change (startswith (lit "//") (posixpath.sep :: b :: c :: p))
        with (Ascii.eqb "/" b && true).
      change (startswith (lit "///") (posixpath.sep :: b :: c :: p))
        with (Ascii.eqb "/" b && (Ascii.eqb "/" c && true)).
      rewrite (Ascii.eqb_sym b), (Ascii.eqb_sym c). unfold posixpath.sep.
      destruct (Ascii.eqb "/" b); [|reflexivity].
      destruct (Ascii.eqb "/" c); reflexivity. }
  assert (0 < k) as Hpos.
  { unfold k. pose proof (isabs_leading p Habs).
    destruct (leading_seps p) as [|[|[|n]]]; cbn; lia. }
  split; [|exact Hpos].
  unfold posixpath.normpath. destruct p as [|a p]; [discriminate Habs|].
  cbv zeta. rewrite Hk.
  destruct k as [|k]; [lia|]. reflexivity.
Qed.

Lemma components_normpath p :
  posixpath.isabs p = true ->
  components (posixpath.normpath p)
  = fold_left (posixpath.norm_step (initial_slashes (leading_seps p)))
              (components p) [].
Proof.
  intros Habs. destruct (normpath_abs p Habs) as [-> _].
  rewrite components_repeat. unfold components at 2.
  rewrite <- fold_norm_components. apply components_join.
  rewrite fold_norm_components.
  apply fold_norm_pieces; [constructor|apply components_pieces].
Qed.

Lemma commonprefix_app l m : posixpath.commonprefix l (l ++ m) = l.
Proof.
  induction l as [|x l IH]; [now destruct m|]. cbn.
  now rewrite str_eqb_refl, IH.
Qed.

Lemma anchored_facts cwd p :
  posixpath.isabs cwd = true ->
  posixpath.isabs (anchored cwd p) = true
  /\ components (anchored cwd p)
     = (if posixpath.isabs p then [] else components cwd) ++ components p
  /\ leading_seps (anchored cwd p)
     = if posixpath.isabs p then leading_seps p else leading_seps cwd.
Proof.
  intros Hcwd. unfold anchored. destruct (posixpath.isabs p) eqn:Hp.
  - now repeat split.
  - change (posixpath.join cwd [p]) with (posixpath.join_step cwd p).
    assert (cwd <> []) as Hne by (destruct cwd; [discriminate|discriminate]).
    repeat split.
    + now rewrite (isabs_join_step _ _ Hp).
    + now apply components_join_step.
    + now apply leading_join_step.
Qed.

End NormpathMore.

Section ResolverMore.
Import Str.

Lemma endswith_sep_last front c :
  endswith [posixpath.sep] (front ++ [c]) = Ascii.eqb posixpath.sep c.
Proof.
  unfold endswith. rewrite rev_app_distr. cbn [rev app].
  apply startswith_sep_cons.
Qed.

Lemma plain_ends_plain front b :
  plain_name b = true -> endswith [posixpath.sep] (front ++ b) = false.
Proof.
  intros Hb. destruct (plain_name_facts b Hb) as (Hne & Hsep & _).
  destruct (exists_last Hne) as (b' & c & ->).
  rewrite app_assoc, endswith_sep_last.
  destruct (Ascii.eqb_spec posixpath.sep c) as [<-|_]; [|reflexivity].
  exfalso. apply Hsep. apply in_or_app. right. now left.
Qed.

(** Plain names joined to a plain name are found again by [split]. *)
Lemma split_join_plain more : forall front d,
  plain_name d = true ->
  Forall (fun c => plain_name c = true) more ->
  split posixpath.sep (posixpath.join (front ++ d) more)
  = split posixpath.sep (front ++ d) ++ more.
Proof.
  induction more as [|n more IH]; intros front d Hd H.
  - cbn. now rewrite app_nil_r.
  - inversion H as [|? ? Hn Hns]; subst.
    change (posixpath.join (front ++ d) (n :: more))
      with (posixpath.join (posixpath.join_step (front ++ d) n) more).
    assert (posixpath.join_step (front ++ d) n
            = (front ++ d ++ [posixpath.sep]) ++ n) as ->.
    { unfold posixpath.join_step. rewrite (plain_not_abs n Hn).
      rewrite (plain_ends_plain front d Hd).
      destruct (plain_name_facts d Hd) as (Hne & _).
      destruct (front ++ d) eqn:E.
      - destruct front; destruct d; try discriminate.
      - rewrite <- E, <- !app_assoc. reflexivity. }
    rewrite (IH _ n Hn Hns). rewrite <- !app_assoc. cbn [app].
    rewrite (app_assoc front d). rewrite split_app_sep.
    destruct (plain_name_facts n Hn) as (_ & Hsep & _).
    rewrite (split_plain _ n Hsep), <- app_assoc. reflexivity.
Qed.

Lemma relpath_unfold cwd p start :
  p <> [] ->
  posixpath.relpath cwd p start
  = let start_list := components (posixpath.normpath (anchored cwd start)) in
    let path_list := components (posixpath.normpath (anchored cwd p)) in
    let i := length (posixpath.commonprefix start_list path_list) in
    match repeat (lit "..") (length start_list - i) ++ skipn i path_list with
    | [] => Ok (lit ".")
    | a :: q => Ok (posixpath.join a q)
    end.
Proof. destruct p; [contradiction|reflexivity]. Qed.

(** The path of a file under the root, relative to the root, is made of the
    names that lead to it. *)
Lemma relpath_under cwd base d more :
  posixpath.isabs cwd = true ->
  Forall (fun c => plain_name c = true) (d :: more) ->
  posixpath.relpath cwd (posixpath.join base (d :: more)) base
  = Ok (posixpath.join d more).
Proof.
  intros Hcwd Hnames.
  destruct (join_plain (d :: more) base Hnames) as (Ha & Hc & Hl).
  set (file := posixpath.join base (d :: more)) in *.
  assert (file <> []) as Hfile.
  { intros E. rewrite E, components_nil in Hc.
    destruct (components base); discriminate. }
  destruct (anchored_facts cwd base Hcwd) as (Hb1 & Hb2 & Hb3).
  destruct (anchored_facts cwd file Hcwd) as (Hf1 & Hf2 & Hf3).
  assert (components (anchored cwd file) = components (anchored cwd base) ++ d :: more)
    as Hcomps.
  { rewrite Hf2, Hb2, Ha, Hc. now rewrite app_assoc. }
  assert (leading_seps (anchored cwd file) = leading_seps (anchored cwd base)) as Hlead.
  { rewrite Hf3, Hb3, Ha. destruct (posixpath.isabs base) eqn:E; [|reflexivity].
    apply Hl. destruct base; discriminate. }
  rewrite (relpath_unfold cwd file base Hfile). cbv zeta.
  rewrite (components_normpath _ Hb1), (components_normpath _ Hf1).
  rewrite Hcomps, Hlead, fold_left_app.
  rewrite (fold_norm_plain _ (d :: more) _ Hnames).
  rewrite commonprefix_app, Nat.sub_diag. cbn [repeat app].
  rewrite skipn_app, Nat.sub_diag, skipn_all. cbn [skipn app]. reflexivity.
Qed.

(** The book of a file reached from the root through plain names is read
    off the first name. *)
Lemma book_under_root cwd base first more :
  posixpath.isabs cwd = true ->
  Forall (fun c => plain_name c = true) (first :: more) ->
  get_book_number_from_path cwd (posixpath.join base (first :: more)) base
  = match more with
    | [] => Ok None
    | _ :: _ =>
        if Str.isdigit first then
          if forallb Str.isdecimal_char first
          then Ok (Some (decimal_value first))
          else Raise ValueError
        else Ok None
    end.
Proof.
  intros Hcwd Hnames.
  rewrite (book_number_by_parts _ _ _ _ (relpath_under cwd base first more Hcwd Hnames)).
  inversion Hnames as [|? ? Hd Hmore]; subst.
  pose proof (split_join_plain more [] first Hd Hmore) as Hs.
  cbn [app] in Hs. rewrite Hs.
  destruct (plain_name_facts first Hd) as (_ & Hsep & _).
  rewrite (split_plain _ first Hsep). cbn [app].
  destruct more; reflexivity.
Qed.

End ResolverMore.

(** X6.  For a working directory that is absolute, and for every root, a
    file reached from the root through plain names resolves by the first
    name alone: a file directly in the root has no book; below a folder of
    decimal digits the book is that number; below a folder that [isdigit]
    rejects there is no book; below a folder of digits that are not all
    decimal the resolver raises [ValueError].  The answer depends neither on
    the root nor on the working directory. *)
Theorem book_of_path_under_root (cwd base_dir folder : str) (more : list str) :
  posixpath.isabs cwd = true ->
  Forall (fun c => plain_name c = true) (folder :: more) ->
  get_book_number_from_path cwd (posixpath.join base_dir (folder :: more))
                            base_dir
  = match more with
    | [] => Ok None
    | _ :: _ =>
        if Str.isdigit folder then
          if forallb Str.isdecimal_char folder
          then Ok (Some (decimal_value folder))
          else Raise ValueError
        else Ok None
    end.
Proof. apply book_under_root. Qed.

Lemma book_of_path_under_root_witness :
  get_book_number_from_path (lit "/srv") (lit "abc_books/12/jigs.abc")
                            (lit "abc_books")
  = Ok (Some 12%Z).
Proof.
  apply (book_of_path_under_root (lit "/srv") (lit "abc_books") (lit "12")
                                 [lit "jigs.abc"]).
  - reflexivity.
  - repeat constructor.
Defined.

Section ResolverEdges.

Lemma int_digits_raises s : forall acc e,
  int_digits acc s = Raise e -> e = ValueError.
Proof.
  induction s as [|c s IH]; intros acc e H; [discriminate|].
  cbn [int_digits] in H. destruct (Str.isdecimal_char c).
  - exact (IH _ _ H).
  - now injection H.
Qed.

Lemma int_raises s e : int s = Raise e -> e = ValueError.
Proof.
  destruct s as [|c s]; intros H.
  - now injection H.
  - exact (int_digits_raises _ _ _ H).
Qed.

Lemma relpath_raises cwd p start e :
  posixpath.relpath cwd p start = Raise e -> e = ValueError.
Proof.
  destruct p as [|c p]; intros H; [now injection H|].
  rewrite relpath_unfold in H by discriminate. cbv zeta in H.
  destruct (_ ++ _) in H; discriminate.
Qed.

Lemma relpath_same cwd p :
  p <> [] -> posixpath.relpath cwd p p = Ok (lit ".").
Proof.
  intros Hp. rewrite (relpath_unfold cwd p p Hp). cbv zeta.
  set (l := components (posixpath.normpath (anchored cwd p))).
  pose proof (commonprefix_app l []) as E. rewrite app_nil_r in E.
  rewrite E, Nat.sub_diag, skipn_all. reflexivity.
Qed.

Lemma resolver_raises cwd file_path base_dir e :
  get_book_number_from_path cwd file_path base_dir = Raise e -> e = ValueError.
Proof.
  unfold get_book_number_from_path.
  destruct (posixpath.relpath cwd file_path base_dir) as [rel|e'] eqn:Hrel.
  - cbn [rbind].
    destruct (Str.split posixpath.sep rel) as [|parent [|second rest]];
      try discriminate.
    cbn [length Nat.leb getpart nth_error rbind].
    destruct (Str.isdigit parent); [|discriminate].
    destruct (int parent) as [n|e''] eqn:Hint; [discriminate|].
    cbn [rbind]. intros H. injection H as <-. exact (int_raises _ _ Hint).
  - cbn [rbind]. intros H. injection H as <-.
    exact (relpath_raises _ _ _ _ Hrel).
Qed.

End ResolverEdges.

(** X7.  The resolver raises nothing but [ValueError]: no path and no root
    make the lookup of the first segment fail. *)
Theorem resolver_raises_only_value_error (cwd file_path base_dir : str) (e : exn) :
  get_book_number_from_path cwd file_path base_dir = Raise e ->
  e = ValueError.
Proof. apply resolver_raises. Qed.

Lemma resolver_raises_only_value_error_witness :
  get_book_number_from_path (lit "/srv")
    (lit "abc_books/" ++ superscript_two ++ lit "/a.abc") (lit "abc_books")
  = Raise ValueError.
Proof.
  assert (exists e, get_book_number_from_path (lit "/srv")
            (lit "abc_books/" ++ superscript_two ++ lit "/a.abc")
            (lit "abc_books") = Raise e) as [e He]
    by (eexists; reflexivity).
  rewrite He. f_equal.
  exact (resolver_raises_only_value_error _ _ _ e He).
Defined.

(** X8.  The root given as the file has no book, whatever the working
    directory; the empty path raises [ValueError], whatever the root. *)
Theorem root_itself_has_no_book (cwd base_dir : str) :
  (base_dir <> [] -> get_book_number_from_path cwd base_dir base_dir = Ok None)
  /\ get_book_number_from_path cwd [] base_dir = Raise ValueError.
Proof.
  split; [|reflexivity]. intros Hne.
  now rewrite (book_number_by_parts _ _ _ _ (relpath_same cwd base_dir Hne)).
Qed.

(** ** The walk and the files found *)

Section WalkFacts.

Lemma dirtree_induction (P : dirtree -> Prop) :
  (forall name files subdirs, Forall P subdirs -> P (Dir name files subdirs)) ->
  forall d, P d.
Proof.
  intros H. fix IH 1. intros [name files subdirs]. apply H.
  induction subdirs as [|s subdirs IHs]; constructor; [apply IH|exact IHs].
Qed.

Lemma join_join a p q :
  posixpath.join (posixpath.join a p) q = posixpath.join a (p ++ q).
Proof. unfold posixpath.join. now rewrite fold_left_app. Qed.

(** In a tree of plain names the walk visits only directories below its
    top, and lists only plain names. *)
Lemma walk_plain d : forall top,
  plain_tree d = true ->
  Forall (fun entry => below top d (fst (fst entry))
                       /\ Forall (fun f => plain_name f = true) (snd entry))
         (walk_tree top d).
Proof.
  induction d as [name files subdirs IH] using dirtree_induction.
  intros top H. cbn [plain_tree] in H. apply andb_prop in H as [Hfiles Hsubs].
  cbn [walk_tree]. constructor.
  - cbn [fst snd]. split; [now left|].
    apply Forall_forall. now apply forallb_forall.
  - apply Forall_flat_map. rewrite Forall_forall in IH |- *.
    intros sub Hsub. rewrite forallb_forall in Hsubs.
    specialize (Hsubs sub Hsub). apply andb_prop in Hsubs as [Hn Hp].
    specialize (IH sub Hsub (posixpath.join top [dir_name sub]) Hp).
    eapply Forall_impl; [|exact IH].
    intros [[root dirs] fs] [Hroot Hfs]. cbn [fst snd] in *. split; [|exact Hfs].
    right. destruct Hroot as [->|(folder & names & _ & Hnames & ->)].
    + exists (dir_name sub), []. split; [now apply in_map|].
      split; [now constructor|reflexivity].
    + exists (dir_name sub), (folder :: names).
      split; [now apply in_map|]. split; [now constructor|].
      now rewrite join_join.
Qed.

End WalkFacts.

Section FinderFacts.

Variable w : world.
Variable base_dir : str.

Lemma abc_paths_In p :
  In p (abc_paths w base_dir)
  <-> exists root dirs files f,
        In (root, dirs, files) (os_walk w base_dir)
        /\ In f files /\ is_abc f = true /\ p = posixpath.join root [f].
Proof.
  unfold abc_paths. rewrite in_flat_map. split.
  - intros ([[root dirs] files] & He & Hp).
    apply in_map_iff in Hp as (f & <- & Hf).
    apply filter_In in Hf as [Hf Habc]. now exists root, dirs, files, f.
  - intros (root & dirs & files & f & He & Hf & Habc & ->).
    exists (root, dirs, files). split; [exact He|].
    apply in_map_iff. exists f. split; [reflexivity|now apply filter_In].
Qed.

Lemma abc_paths_length :
  length (abc_paths w base_dir)
  = list_sum (map (fun entry => length (filter is_abc (snd entry)))
                  (os_walk w base_dir)).
Proof.
  unfold abc_paths. induction (os_walk w base_dir) as [|[[root dirs] files] l IH];
    [reflexivity|].
  cbn [flat_map map list_sum snd]. now rewrite length_app, length_map, IH.
Qed.

(** In a tree of plain names every file found is the root joined with plain
    names; when there is more than one name, the first is a folder of the
    root. *)
Lemma found_under_root d p :
  tree_at w base_dir = Some d ->
  plain_tree d = true ->
  In p (find_abc_files w base_dir) ->
  exists first more,
    Forall (fun c => plain_name c = true) (first :: more)
    /\ p = posixpath.join base_dir (first :: more)
    /\ (more = [] \/ In first (map dir_name (subdirs_of d))).
Proof.
  intros Ht Hd Hp.
  apply (Permutation_in _ (proj1 (find_abc_files_sorted w base_dir))) in Hp.
  apply abc_paths_In in Hp as (root & dirs & files & f & He & Hf & _ & ->).
  unfold os_walk in He. rewrite Ht in He.
  pose proof (walk_plain d base_dir Hd) as Hw. rewrite Forall_forall in Hw.
  destruct (Hw _ He) as [Hroot Hfiles]. cbn [fst snd] in *.
  rewrite Forall_forall in Hfiles. specialize (Hfiles f Hf).
  destruct Hroot as [->|(folder & names & Hin & Hnames & ->)].
  - exists f, []. split; [now constructor|]. split; [reflexivity|now left].
  - exists folder, (names ++ [f]). split; [|split; [|now right]].
    + inversion Hnames as [|? ? H1 H2]; subst. constructor; [exact H1|].
      apply Forall_app. split; [exact H2|now constructor].
    + now rewrite join_join.
Qed.

End FinderFacts.

(** X9.  The files found are the files that the walk lists with a name
    ending in a dot and the letters a, b, c, each in either case, every one
    of them once, under the directory that lists them; they come in
    ascending order; and a root that is no directory gives no file. *)
Theorem find_abc_files_spec (w : world) (base_dir : str) :
  (forall p,
      In p (find_abc_files w base_dir)
      <-> exists root dirs files stem a b c,
            In (root, dirs, files) (os_walk w base_dir)
            /\ In (stem ++ ["."; a; b; c]) files
            /\ (a = "a" \/ a = "A") /\ (b = "b" \/ b = "B")
            /\ (c = "c" \/ c = "C")
            /\ p = posixpath.join root [stem ++ ["."; a; b; c]])
  /\ length (find_abc_files w base_dir)
     = list_sum (map (fun entry => length (filter is_abc (snd entry)))
                     (os_walk w base_dir))
  /\ Sorted str_le (find_abc_files w base_dir)
  /\ (tree_at w base_dir = None -> find_abc_files w base_dir = []).
Proof.
  destruct (find_abc_files_sorted w base_dir) as [Hperm Hsorted].
  split; [|split; [|split]].
  - intros p. split.
    + intros Hp. apply (Permutation_in _ Hperm) in Hp.
      apply abc_paths_In in Hp as (root & dirs & files & f & He & Hf & Habc & ->).
      apply is_abc_extension in Habc as (stem & a & b & c & -> & Ha & Hb & Hc).
      now exists root, dirs, files, stem, a, b, c.
    + intros (root & dirs & files & stem & a & b & c & He & Hf & Ha & Hb & Hc & ->).
      apply (Permutation_in _ (Permutation_sym Hperm)).
      apply abc_paths_In. exists root, dirs, files, (stem ++ ["."; a; b; c]).
      split; [exact He|]. split; [exact Hf|]. split; [|reflexivity].
      apply is_abc_extension. now exists stem, a, b, c.
  - rewrite (Permutation_length Hperm). apply abc_paths_length.
  - exact Hsorted.
  - intros Hnone. unfold find_abc_files, os_walk. now rewrite Hnone.
Qed.

(** ** The import as a whole *)

Section ImportMore.

Variable w : world.
Variable base_dir : str.

(** Either the book of every file resolves, or there is a first file at
    which the resolver raises. *)
Lemma resolves_split files :
  Forall (resolves w base_dir) files
  \/ exists good bad rest,
       files = good ++ bad :: rest
       /\ Forall (resolves w base_dir) good
       /\ get_book_number_from_path (getcwd w) bad base_dir = Raise ValueError.
Proof.
  induction files as [|f fs IH]; [now left|].
  destruct (get_book_number_from_path (getcwd w) f base_dir) as [b|e] eqn:Hf.
  - assert (resolves w base_dir f) as Hr by now exists b.
    destruct IH as [IH|(good & bad & rest & -> & Hgood & Hbad)].
    + left. now constructor.
    + right. exists (f :: good), bad, rest. repeat split; [now constructor|exact Hbad].
  - right. exists [], f, fs. rewrite (resolver_raises _ _ _ _ Hf) in Hf.
    repeat split; [constructor|exact Hf].
Qed.

(** The two ways in which a run ends. *)
Lemma import_outcomes :
  let files := find_abc_files w base_dir in
  (Forall (resolves w base_dir) files
   /\ forall db,
        import_abc_books w base_dir db
        = (Ok (length (entries_of w base_dir files)),
           db ++ write_rows w (length db) (entries_of w base_dir files)))
  \/ (exists good bad rest,
        files = good ++ bad :: rest
        /\ Forall (resolves w base_dir) good
        /\ get_book_number_from_path (getcwd w) bad base_dir = Raise ValueError
        /\ forall db,
             import_abc_books w base_dir db
             = (Raise ValueError,
                db ++ write_rows w (length db) (entries_of w base_dir good))).
Proof.
  intros files.
  destruct (resolves_split files) as [H|(good & bad & rest & E & Hgood & Hbad)].
  - left. split; [exact H|]. intros db.
    destruct (import_abc_books_run w base_dir db H) as [-> _].
    now rewrite write_rows_length.
  - right. exists good, bad, rest. repeat split; try assumption.
    intros db. unfold import_abc_books. fold files. rewrite E.
    apply import_files_raise; assumption.
Qed.

Lemma write_rows_Forall (Q : TuneRow.t -> Prop) entries : forall start,
  Forall (fun entry => forall now,
              Q (row_of_tune now (fst (fst entry)) (snd (fst entry)) (snd entry)))
         entries ->
  Forall Q (write_rows w start entries).
Proof.
  induction entries as [|[[t b] f] es IH]; intros start H; [constructor|].
  inversion H as [|? ? H1 H2]; subst. cbn [write_rows].
  constructor; [apply H1|now apply IH].
Qed.

Lemma undated_write_rows entries : forall s s',
  map undated (write_rows w s entries) = map undated (write_rows w s' entries).
Proof.
  induction entries as [|[[t b] f] es IH]; intros s s'; [reflexivity|].
  cbn [write_rows map]. f_equal. apply IH.
Qed.

Lemma tunes_of_length fpath :
  length (tunes_of w fpath) = marker_count (read_text w fpath).
Proof.
  unfold tunes_of, marker_count.
  now rewrite length_map, findall_text, length_map, blocks_count.
Qed.

Lemma entries_length files :
  length (entries_of w base_dir files)
  = list_sum (map (fun f => marker_count (read_text w f)) files).
Proof.
  induction files as [|f fs IH]; [reflexivity|].
  cbn [entries_of flat_map map list_sum]. fold (entries_of w base_dir fs).
  now rewrite length_app, length_map, IH, tunes_of_length.
Qed.

(** Where the entries of resolving files come from. *)
Lemma entries_provenance files :
  Forall (resolves w base_dir) files ->
  Forall (fun entry =>
            In (snd entry) files
            /\ get_book_number_from_path (getcwd w) (snd entry) base_dir
               = Ok (snd (fst entry))
            /\ x_number (fst (fst entry)) <> None
            /\ Str.startswith (lit "X:") (tune_text (fst (fst entry))) = true)
         (entries_of w base_dir files).
Proof.
  intros H. unfold entries_of. apply Forall_flat_map.
  rewrite Forall_forall in H |- *. intros f Hf.
  destruct (H f Hf) as [b Hb]. apply Forall_map.
  eapply Forall_impl; [|apply (records_numbered (read_text w f))].
  intros t [Hx Ht]. cbn [fst snd]. repeat split; try assumption.
  unfold book_of. now rewrite Hb.
Qed.

Lemma rows_provenance files start :
  Forall (resolves w base_dir) files ->
  Forall (fun r =>
            In (TuneRow.file_path r) files
            /\ get_book_number_from_path (getcwd w) (TuneRow.file_path r) base_dir
               = Ok (TuneRow.book r)
            /\ TuneRow.x_number r <> None
            /\ Str.startswith (lit "X:") (TuneRow.tune_text r) = true)
         (write_rows w start (entries_of w base_dir files)).
Proof.
  intros H. apply write_rows_Forall.
  eapply Forall_impl; [|apply (entries_provenance files H)].
  intros [[t b] f] (H1 & H2 & H3 & H4) now. cbn [fst snd] in *.
  now repeat split.
Qed.

(** Whatever the outcome, the table after a run is the table before it
    followed by rows of files found, each with the book of its file. *)
Lemma import_appends db :
  exists rows,
    snd (import_abc_books w base_dir db) = db ++ rows
    /\ (forall n, fst (import_abc_books w base_dir db) = Ok n -> n = length rows)
    /\ Forall (fun r =>
                 In (TuneRow.file_path r) (find_abc_files w base_dir)
                 /\ get_book_number_from_path (getcwd w) (TuneRow.file_path r) base_dir
                    = Ok (TuneRow.book r)
                 /\ TuneRow.x_number r <> None
                 /\ Str.startswith (lit "X:") (TuneRow.tune_text r) = true)
              rows.
Proof.
  destruct import_outcomes as [[H Hrun]|(good & bad & rest & E & Hgood & Hbad & Hrun)].
  - exists (write_rows w (length db) (entries_of w base_dir (find_abc_files w base_dir))).
    rewrite Hrun. cbn [fst snd]. split; [reflexivity|]. split.
    + intros n [= <-]. now rewrite write_rows_length.
    + now apply rows_provenance.
  - exists (write_rows w (length db) (entries_of w base_dir good)).
    rewrite Hrun. cbn [fst snd]. split; [reflexivity|]. split; [discriminate|].
    eapply Forall_impl; [|apply (rows_provenance good _ Hgood)].
    intros r (H1 & H2). split; [|exact H2].
    rewrite E. apply in_or_app. now left.
Qed.

(** On a tree of plain names with decimal folders, the book of every file
    found resolves, to what its first name stands for. *)
Lemma found_resolves d p :
  posixpath.isabs (getcwd w) = true ->
  tree_at w base_dir = Some d ->
  plain_tree d = true ->
  decimal_folders d = true ->
  In p (find_abc_files w base_dir) ->
  exists first more,
    Forall (fun c => plain_name c = true) (first :: more)
    /\ p = posixpath.join base_dir (first :: more)
    /\ get_book_number_from_path (getcwd w) p base_dir
       = Ok (book_of_names first more).
Proof.
  intros Hcwd Ht Hd Hdec Hp.
  destruct (found_under_root w base_dir d p Ht Hd Hp)
    as (first & more & Hnames & -> & Hfirst).
  exists first, more. split; [exact Hnames|]. split; [reflexivity|].
  rewrite (book_under_root _ base_dir first more Hcwd Hnames).
  destruct more as [|m ms]; [reflexivity|].
  destruct Hfirst as [|Hin]; [discriminate|].
  apply in_map_iff in Hin as (sub & <- & Hsub).
  unfold decimal_folders in Hdec. rewrite forallb_forall in Hdec.
  specialize (Hdec sub Hsub). unfold book_of_names.
  destruct (Str.isdigit (dir_name sub)); [|reflexivity].
  cbn [implb] in Hdec. now rewrite Hdec.
Qed.

End ImportMore.







(** ** More on the queries *)

Section QueryMore.

Lemma get_tunes_by_book_filter df n :
  get_tunes_by_book df n = filter (in_book n) df.
Proof. unfold get_tunes_by_book. now rewrite select_map. Qed.

Lemma in_book_iff n r : in_book n r = true <-> TuneRow.book r = Some n.
Proof.
  unfold in_book. destruct (TuneRow.book r) as [b|].
  - rewrite Z.eqb_eq. split; [now intros ->|now intros [= ->]].
  - split; discriminate.
Qed.

Lemma filter_twice {A} (f g : A -> bool) l :
  (forall x, f x = true -> g x = true) ->
  filter g (filter f l) = filter f l.
Proof.
  intros H. induction l as [|x l IH]; [reflexivity|]. cbn [filter].
  destruct (f x) eqn:E; [|exact IH]. cbn [filter]. now rewrite (H x E), IH.
Qed.

Lemma filter_apart {A} (f g : A -> bool) l :
  (forall x, f x = true -> g x = false) ->
  filter g (filter f l) = [].
Proof.
  intros H. induction l as [|x l IH]; [reflexivity|]. cbn [filter].
  destruct (f x) eqn:E; [|exact IH]. cbn [filter]. now rewrite (H x E), IH.
Qed.

Lemma special_lower c : re.special (Str.lower_char c) = re.special c.
Proof. destruct c as [[] [] [] [] [] [] [] []]; reflexivity. Qed.

Lemma plain_lower term :
  forallb (fun c => negb (re.special c)) term = true ->
  forallb (fun c => negb (re.special c)) (Str.lower term) = true.
Proof.
  induction term as [|c term IH]; [reflexivity|]. cbn [Str.lower map forallb].
  intros H. apply andb_prop in H as [Hc Ht].
  rewrite special_lower, Hc. exact (IH Ht).
Qed.

Lemma compile_nonempty pat p :
  pat <> [] -> re.compile pat = Some p -> p <> [].
Proof.
  destruct pat as [|c pat]; [contradiction|]. intros _. cbn [re.compile].
  destruct (re.compile pat); [|discriminate].
  destruct (Ascii.eqb c "."); [now intros [= <-]|].
  destruct (re.special c); [discriminate|now intros [= <-]].
Qed.

Lemma search_empty_cell p : p <> [] -> re.search p [] = false.
Proof. destruct p as [|[c|] p]; [contradiction|reflexivity|reflexivity]. Qed.

Lemma search_empty_pattern s : re.search [] s = true.
Proof. destruct s; reflexivity. Qed.

Lemma select_all df (cells : list str) :
  length cells = length df ->
  select df (map (re.search []) cells) = df.
Proof.
  revert cells. induction df as [|r df IH]; intros [|c cells] H;
    try reflexivity; try discriminate.
  cbn [map select]. rewrite search_empty_pattern. f_equal.
  apply IH. now injection H.
Qed.

(** With a term that is not empty, a filter keeps no row whose cell is
    absent or empty. *)
Lemma filled_cells (cell : TuneRow.t -> option str) df term found :
  term <> [] ->
  match str_contains (Str.lower term)
                     (map (fun r => Str.lower (fillna [] (cell r))) df) with
  | Some mask => Some (select df mask)
  | None => None
  end = Some found ->
  Forall (fun r => exists t, cell r = Some t /\ t <> []) found.
Proof.
  intros Hterm. unfold str_contains.
  destruct (re.compile (Str.lower term)) as [p|] eqn:Hp; [|discriminate].
  intros [= <-]. rewrite map_map, select_map.
  assert (p <> []) as Hne.
  { apply (compile_nonempty (Str.lower term)); [|exact Hp].
    destruct term; [contradiction|discriminate]. }
  apply Forall_forall. intros r Hr. apply filter_In in Hr as [_ Hr].
  destruct (cell r) as [[|c t]|].
  - cbn [fillna Str.lower map] in Hr.
    now rewrite (search_empty_cell p Hne) in Hr.
  - exists (c :: t). split; [reflexivity|discriminate].
  - cbn [fillna Str.lower map] in Hr.
    now rewrite (search_empty_cell p Hne) in Hr.
Qed.

Lemma count_cons v u col :
  count v (u :: col) = (if str_eqb v u then 1 else 0) + count v col.
Proof. unfold count. cbn [filter]. now destruct (str_eqb v u). Qed.

Lemma list_sum_cons x l : list_sum (x :: l) = x + list_sum l.
Proof. reflexivity. Qed.

Lemma sum_without (f : str -> nat) u l :
  NoDup l ->
  list_sum (map f l)
  = (if existsb (str_eqb u) l then f u else 0)
    + list_sum (map f (filter (fun v => negb (str_eqb u v)) l)).
Proof.
  induction 1 as [|x l Hx Hl IH]; [reflexivity|].
  cbn [map filter existsb]. rewrite list_sum_cons, IH.
  destruct (str_eqb u x) eqn:E.
  - apply str_eqb_eq in E. subst x. cbn [negb orb].
    destruct (existsb (str_eqb u) l) eqn:Hex; [|lia].
    apply existsb_exists in Hex as (v & Hv & Huv).
    apply str_eqb_eq in Huv. subst v. contradiction.
  - cbn [negb orb map]. rewrite list_sum_cons. lia.
Qed.

(** Every cell of a column is counted once. *)
Lemma counts_add_up col :
  list_sum (map (fun v => count v col) (firsts col)) = length col.
Proof.
  induction col as [|u col IH]; [reflexivity|].
  cbn [firsts map length]. rewrite list_sum_cons, count_cons, str_eqb_refl.
  rewrite <- IH.
  rewrite (sum_without (fun v => count v col) u (firsts col) (firsts_NoDup col)).
  assert (map (fun v => count v (u :: col))
              (filter (fun v => negb (str_eqb u v)) (firsts col))
          = map (fun v => count v col)
                (filter (fun v => negb (str_eqb u v)) (firsts col))) as ->.
  { apply map_ext_in. intros v Hv. apply filter_In in Hv as [_ Hv].
    rewrite count_cons.
    destruct (str_eqb v u) eqn:E; [|reflexivity].
    apply str_eqb_eq in E. subst v. now rewrite str_eqb_refl in Hv. }
  destruct (existsb (str_eqb u) (firsts col)) eqn:Hex; [lia|].
  assert (count u col = 0) as ->; [|lia].
  destruct (count u col) eqn:E; [reflexivity|].
  assert (In u (firsts col)) as Hin by (apply firsts_In, count_pos; lia).
  assert (existsb (str_eqb u) (firsts col) = true) as Hex'.
  { apply existsb_exists. exists u. split; [exact Hin|apply str_eqb_refl]. }
  congruence.
Qed.

Lemma value_counts_total col :
  list_sum (map snd (value_counts col)) = length col.
Proof.
  unfold value_counts.
  rewrite (Permutation_list_sum (Permutation_map snd (sort_values_perm _))).
  rewrite map_map. cbn [snd]. apply counts_add_up.
Qed.

Lemma count_map_label v df :
  count v (map composer_label df)
  = length (filter (fun r => str_eqb v (composer_label r)) df).
Proof.
  unfold count. induction df as [|r df IH]; [reflexivity|].
  cbn [map filter]. destruct (str_eqb v (composer_label r)); cbn [length];
    now rewrite IH.
Qed.

Lemma unknown_label r :
  str_eqb (lit "Unknown") (composer_label r) = unknown_composer r.
Proof.
  unfold unknown_composer, composer_label, fillna.
  destruct (TuneRow.composer r) as [c|]; [|reflexivity].
  destruct (str_eqb c (lit "Unknown")) eqn:E.
  - apply str_eqb_eq in E. now subst.
  - apply str_eqb_neq in E. apply str_eqb_neq. congruence.
Qed.

End QueryMore.


(** X16.  For a term without any of the characters that a pattern gives a
    meaning to, the two filters keep the rows whose cell, an absent one taken
    as empty, contains the term as a substring, both in lower case. *)
Theorem plain_term_is_substring (df : DataFrame) (term : str) :
  forallb (fun c => negb (re.special c)) term = true ->
  search_tunes df term
  = Some (filter (fun r => Str.contains (Str.lower term)
                             (Str.lower (fillna [] (TuneRow.title r)))) df)
  /\ get_tunes_by_type df term
     = Some (filter (fun r => Str.contains (Str.lower term)
                                (Str.lower (fillna [] (TuneRow.rhythm r)))) df).
Proof.
  intros H. apply plain_lower in H. split.
  - now apply search_tunes_plain.
  - now apply get_tunes_by_type_plain.
Qed.

Lemma plain_term_is_substring_witness :
  search_tunes [one_reel] (lit "COOL") = Some [one_reel]
  /\ get_tunes_by_type [one_reel] (lit "COOL") = Some [].
Proof.
  exact (plain_term_is_substring [one_reel] (lit "COOL") eq_refl).
Defined.


(** X18.  When nothing is cut off, the counts that [top_composers] lists add
    up to the number of rows: every row is counted once.  The rows without a
    composer and the rows whose composer is ["Unknown"] are counted together;
    and no more entries are listed than there are rows. *)
Theorem top_composers_counts_rows (df : DataFrame) :
  list_sum (map snd (top_composers df (Z.of_nat (length df)))) = length df
  /\ (forall k,
        In (lit "Unknown", k) (top_composers df (Z.of_nat (length df))) ->
        k = length (filter unknown_composer df))
  /\ (forall n, length (top_composers df n) <= length df).
Proof.
  split; [|split].
  - rewrite top_composers_all, value_counts_total. apply length_map.
  - intros k Hk. rewrite top_composers_all in Hk.
    apply value_counts_entries in Hk as [-> _]. rewrite count_map_label.
    f_equal. apply filter_ext. intros r. apply unknown_label.
  - intros n. unfold top_composers, head.
    pose proof (value_counts_length (map composer_label df)) as H.
    rewrite length_map in H.
    destruct (0 <=? n)%Z; rewrite length_firstn; lia.
Qed.
